(** * tpot2/objectives.py: fault-tolerant evaluation of individuals

    A shallow embedding of [src/tpot2/objectives.py] and the properties of
    its functions.  Python values are embedded by the small types below,
    exceptions and printing by the monad [M], the opaque callables
    (objective functions, [ind.optimize]) by the record [Call] that says
    how long a call runs, what it warns about and what it returns or
    raises. *)

From Stdlib Require Import ZArith QArith.
From stdpp Require Import base tactics option list list_monad sorting strings pretty gmap.

(** ** Python values *)

(** An element of a score row.  Python floats are embedded as exact
    rationals, [np.nan] as a value of its own. *)
Inductive Score : Type :=
  | Num (q : Q)
  | NaN
  | Str (s : string)
  | PyNone.

(** What an objective function (or [ind.optimize]) returns: a bare value or
    a sequence (list, tuple, one-dimensional array) of values. *)
Inductive PyVal : Type :=
  | Scalar (x : Score)
  | Sequence (xs : list Score).

(** The two sentinels of the evaluation path. *)
Definition TIMEOUT : Score := Str "TIMEOUT".
Definition INVALID : Score := Str "INVALID".

(** [tag in row] for a str [tag]: some element compares equal to it; only a
    str does. *)
Definition is_str (tag : string) (x : Score) : bool :=
  match x with
  | Str s => String.eqb s tag
  | _ => false
  end.

Definition contains (tag : string) (row : list Score) : bool :=
  existsb (is_str tag) row.

(** ** process_scores *)

(** One turn of [for i in range(len(scores))]: the row at [i] is replaced in
    place when it is shorter than [n]. *)
Definition process_scores_step (n : Z) (scores : list (list Score)) (i : nat)
  : list (list Score) :=
  match scores !! i with
  | Some row =>
      if (Z.of_nat (length row) <? n)%Z then
        if contains "TIMEOUT" row
        then <[i := replicate (Z.to_nat n) TIMEOUT]> scores
        else <[i := replicate (Z.to_nat n) INVALID]> scores
      else scores
  | None => scores
  end.

Definition process_scores (scores : list (list Score)) (n : Z)
  : list (list Score) :=
  foldl (process_scores_step n) scores (seq 0 (length scores)).

(** What the contract says of one row and the row that replaces it. *)
Definition row_repaired (n : Z) (row out : list Score) : Prop :=
  ((Z.of_nat (length row) < n)%Z →
     (TIMEOUT ∈ row → out = replicate (Z.to_nat n) TIMEOUT) ∧
     (TIMEOUT ∉ row → out = replicate (Z.to_nat n) INVALID)) ∧
  ((n ≤ Z.of_nat (length row))%Z → out = row).

(** The row-wise reading of the loop. *)
Definition repair_row (n : Z) (row : list Score) : list Score :=
  if (Z.of_nat (length row) <? n)%Z then
    if contains "TIMEOUT" row
    then replicate (Z.to_nat n) TIMEOUT
    else replicate (Z.to_nat n) INVALID
  else row.

(** ** Exceptions, the operator channel, opaque calls *)

(** The classes the handlers of this module tell apart.
    [FunctionTimedOut] is func_timeout's signal; an [ExceptionSubclass] is
    an instance of [Exception] (ValueError, TypeError, ...); a
    [BaseExceptionOnly] is an instance of [BaseException] that is no
    [Exception] (KeyboardInterrupt, SystemExit, GeneratorExit). *)
Inductive ExcClass : Type :=
  | FunctionTimedOut
  | ExceptionSubclass (name : string)
  | BaseExceptionOnly (name : string).

(** An exception object: its class, [str(e)] and the text
    [traceback.format_exc()] gives for it. *)
Record PyExc : Type := mkExc {
  exc_class : ExcClass;
  exc_str : string;
  exc_trace : string
}.

Definition ValueError (msg : string) : PyExc :=
  mkExc (ExceptionSubclass "ValueError") msg "".
Definition TypeError (msg : string) : PyExc :=
  mkExc (ExceptionSubclass "TypeError") msg "".
Definition IndexError (msg : string) : PyExc :=
  mkExc (ExceptionSubclass "IndexError") msg "".
Definition UnboundLocalError (var : string) : PyExc :=
  mkExc (ExceptionSubclass "UnboundLocalError") var "".

Inductive Res (A : Type) : Type :=
  | Returns (a : A)
  | Raises (e : PyExc).
Arguments Returns {A} a.
Arguments Raises {A} e.

(** A computation of this module: the lines it prints and how it ends. *)
Record M (A : Type) : Type := Run {
  stdout : list string;
  outcome : Res A
}.
Arguments Run {A} stdout outcome.
Arguments stdout {A} m.
Arguments outcome {A} m.

#[global] Instance M_ret : MRet M := λ A a, Run [] (Returns a).

#[global] Instance M_bind : MBind M := λ A B k m,
  match outcome m with
  | Returns a => Run (stdout m ++ stdout (k a)) (outcome (k a))
  | Raises e => Run (stdout m) (Raises e)
  end.

#[global] Instance M_fmap : FMap M := λ A B f m,
  match outcome m with
  | Returns a => Run (stdout m) (Returns (f a))
  | Raises e => Run (stdout m) (Raises e)
  end.

Definition raise {A} (e : PyExc) : M A := Run [] (Raises e).
Definition print (line : string) : M () := Run [line] (Returns ()).
Definition when (b : bool) (m : M ()) : M () := if b then m else mret ().

(** The value a computation returned, if it returned. *)
Definition returned {A} (m : M A) : option A :=
  match outcome m with
  | Returns a => Some a
  | Raises _ => None
  end.

(** Values of keyword arguments. *)
Inductive KwVal : Type :=
  | KwNone
  | KwInt (z : Z)
  | KwNum (q : Q)
  | KwStr (s : string)
  | KwVec (v : list Q)
  | KwMat (m : list (list Q)).

(** One call of an opaque callable: how long it runs (seconds), the
    warnings it issues and how it ends. *)
Record Call : Type := mkCall {
  elapsed : Q;
  warned : list string;
  call_result : Res PyVal
}.

Definition newline : string := String (Ascii.ascii_of_nat 10) EmptyString.

(** [func_timeout.func_timeout(timeout, func, args, kwargs)].  The library
    runs the call in a thread of its own and joins it for [timeout] seconds
    (a negative timeout counts as zero).  When the thread is still alive it
    raises FunctionTimedOut and abandons the call.  When the call has ended,
    the value it returned is returned and an instance of [Exception] it
    raised is raised again; the thread catches nothing else, so after a
    FunctionTimedOut or an exception that is no [Exception] raised by the
    call itself there is neither value nor exception and the result is
    None. *)
Definition func_timeout (timeout : Q) (c : Call) : Call :=
  if Qle_bool (elapsed c) timeout || Qle_bool (elapsed c) 0 then
    match call_result c with
    | Returns _ => c
    | Raises e =>
        match exc_class e with
        | ExceptionSubclass _ => c
        | FunctionTimedOut | BaseExceptionOnly _ =>
            mkCall (elapsed c) (warned c) (Returns (Scalar PyNone))
        end
    end
  else mkCall timeout [] (Raises (mkExc FunctionTimedOut "Function timed out" "")).

(** [isinstance(value, Iterable)]: sequences and str are, numbers and None
    are not. *)
Definition isinstance_Iterable (value : PyVal) : bool :=
  match value with
  | Sequence _ => true
  | Scalar (Str _) => true
  | Scalar _ => false
  end.

(** [[value]] for a bare value. *)
Definition list_of (value : PyVal) : PyVal :=
  match value with
  | Scalar x => Sequence [x]
  | Sequence xs => Sequence xs
  end.

Section invoker.

Context {Individual : Type}.

(** An objective function: [(individual, **kwargs)] to one call. *)
Definition ObjectiveFunction : Type := Individual → gmap string KwVal → Call.

(** ** objective_nan_wrapper

    The warnings of the call are recorded in [w] by
    [warnings.catch_warnings(record=True)]; the one re-issued at
    [verbose >= 4] is recorded by the same scope, so neither reaches the
    caller. *)
Definition objective_nan_wrapper (individual : Individual)
    (objective_function : ObjectiveFunction) (verbose : Z)
    (timeout : option Q) (objective_kwargs : gmap string KwVal) : M PyVal :=
  let c :=
    match timeout with
    | None => objective_function individual objective_kwargs
    | Some t => func_timeout t (objective_function individual objective_kwargs)
    end in
  match call_result c with
  | Returns value =>
      let value := if isinstance_Iterable value then value else list_of value in
      mret value
  | Raises e =>
      match exc_class e with
      | FunctionTimedOut =>
          when (4 <=? verbose)%Z (print "WARNING AN INDIVIDUAL TIMED OUT");;
          mret (Sequence [TIMEOUT])
      | ExceptionSubclass _ =>
          when (verbose =? 4)%Z
            (print ("WARNING THIS INDIVIDUAL CAUSED AND EXCEPTION "
                    +:+ newline +:+ " " +:+ exc_str e));;
          when (5 <=? verbose)%Z
            (print ("WARNING THIS INDIVIDUAL CAUSED AND EXCEPTION "
                    +:+ newline +:+ " " +:+ exc_str e +:+ " " +:+ newline
                    +:+ " " +:+ exc_trace e));;
          mret (Sequence [INVALID])
      | BaseExceptionOnly _ => raise e
      end
  end.

(** The call ends within the time budget, if there is one. *)
Definition within_budget (timeout : option Q) (c : Call) : Prop :=
  match timeout with
  | None => True
  | Some t => (elapsed c <= t)%Q
  end.

End invoker.

Arguments ObjectiveFunction Individual : clear implicits.

(** ** numpy arrays of scores *)

Section numpy.

(** The text numpy gives a number that lands in an array of str. *)
Variable np_str : Q → string.

Definition is_none (x : Score) : bool :=
  match x with PyNone => true | _ => false end.
Definition is_text (x : Score) : bool :=
  match x with Str _ => true | _ => false end.
Definition is_nan (x : Score) : bool :=
  match x with NaN => true | _ => false end.

Definition to_text (x : Score) : Score :=
  match x with
  | Num q => Str (np_str q)
  | NaN => Str "nan"
  | Str s => Str s
  | PyNone => PyNone
  end.

(** One dtype for a whole array: with a None it holds objects as they are;
    with a str and no None it holds str, numbers included; otherwise it
    holds numbers. *)
Definition np_asarray (xs : list Score) : list Score :=
  if existsb is_none xs then xs
  else if existsb is_text xs then to_text <$> xs
  else xs.

Definition is_zero_dim (value : PyVal) : bool :=
  match value with Scalar _ => true | Sequence _ => false end.

Definition elements (value : PyVal) : list Score :=
  match value with Scalar x => [x] | Sequence xs => xs end.

(** [np.concatenate(values)] *)
Definition np_concatenate (values : list PyVal) : M (list Score) :=
  match values with
  | [] => raise (ValueError "need at least one array to concatenate")
  | _ =>
      if existsb is_zero_dim values
      then raise (ValueError "zero-dimensional arrays cannot be concatenated")
      else mret (np_asarray (concat ((np_asarray ∘ elements) <$> values)))
  end.

Definition number (x : Score) : Q :=
  match x with Num q => q | _ => 0%Q end.

Definition Qsum (qs : list Q) : Q := foldr Qplus 0%Q qs.

(** [a.mean(axis=0)] of a one-dimensional array: one number.  The mean is
    taken exactly; float64 gives this value when it is representable and
    the nearest float otherwise. *)
Definition np_mean (a : list Score) : M Score :=
  if existsb is_none a || existsb is_text a
  then raise (TypeError "cannot perform reduce with flexible type")
  else if existsb is_nan a then mret NaN
  else match a with
       | [] => mret NaN
       | _ => mret (Num (Qred (Qsum (number <$> a) / inject_Z (Z.of_nat (length a)))))
       end.

(** [a[-1]] *)
Definition np_last (a : list Score) : M Score :=
  match last a with
  | Some x => mret x
  | None => raise (IndexError "index -1 is out of bounds for axis 0 with size 0")
  end.

(** [np.sign] of one weight. *)
Definition np_sign (w : Q) : Q := inject_Z (Z.sgn (Qnum w)).

End numpy.

(** ** Calls with keyword arguments *)

(** A key of [**kwargs] that names a parameter already given by position is
    a TypeError at the call. *)
Definition positional_clash (params : list string) (kwargs : gmap string KwVal)
  : bool :=
  existsb (λ p, bool_decide (is_Some (kwargs !! p))) params.

(** Reading a local variable that may not have been assigned. *)
Definition read_local {A} (name : string) (v : option A) : M A :=
  match v with
  | Some a => mret a
  | None => raise (UnboundLocalError name)
  end.

(** Iterating a value: a str gives its characters, a number or None is not
    iterable. *)
Definition py_iter (x : Score) : M (list Score) :=
  match x with
  | Str s => mret ((λ c, Str (String c EmptyString)) <$> String.list_ascii_of_string s)
  | _ => raise (TypeError "object is not iterable")
  end.

(** [s*w > t*w] *)
Definition exceeds (s : Score) (t w : Q) : M bool :=
  match s with
  | Num q => mret (negb (Qle_bool (q * w) (t * w)))
  | NaN => mret false
  | Str _ | PyNone => raise (TypeError "unsupported operand types")
  end.

(** [thresholds[step]] *)
Definition getitem {A} (l : list A) (i : nat) : M A :=
  match l !! i with
  | Some a => mret a
  | None => raise (IndexError "list index out of range")
  end.

(** ** dask *)

Section dask.

(** The rank at which task [i] completes when [num_workers] workers run the
    tasks: the scheduler's choice, any function. *)
Variable finish_rank : Z → nat → nat.

Definition finishes_before (num_workers : Z) : relation nat :=
  λ i j, finish_rank num_workers i ≤ finish_rank num_workers j.

#[global] Instance finishes_before_dec num_workers :
  RelDecision (finishes_before num_workers) :=
  λ i j, decide (finish_rank num_workers i ≤ finish_rank num_workers j).

(** The order in which the [n] tasks complete. *)
Definition completion_order (num_workers : Z) (n : nat) : list nat :=
  merge_sort (finishes_before num_workers) (seq 0 n).

(** The tasks run in [order]; each result goes to the slot of its task; the
    first task that raises ends the run. *)
Fixpoint run_tasks {A} (order : list nat) (tasks : list (M A))
    (slots : list (option A)) : M (list (option A)) :=
  match order with
  | [] => mret slots
  | i :: order =>
      match tasks !! i with
      | Some task => r ← task; run_tasks order tasks (<[i := Some r]> slots)
      | None => run_tasks order tasks slots
      end
  end.

(** [dask.compute] of the tasks with [num_workers] workers: the results,
    in the order of the arguments. *)
Definition dask_compute {A} (num_workers : Z) (tasks : list (M A)) : M (list A) :=
  slots ← run_tasks (completion_order num_workers (length tasks)) tasks
           (replicate (length tasks) None);
  mret (M := M) (omap (M := list) id slots).

(** The place of [i] in an order: the ranking under which the tasks
    complete in that order. *)
Fixpoint position_in (order : list nat) (i : nat) : nat :=
  match order with
  | [] => 0
  | j :: order => if decide (j = i) then 0 else S (position_in order i)
  end.

(** The slots once the tasks of [order] have returned the results [rs]. *)
Definition fill_slots {A} (rs : list A) (slots : list (option A))
    (order : list nat) : list (option A) :=
  foldl (λ slots i,
           match rs !! i with
           | Some r => <[i := Some r]> slots
           | None => slots
           end) slots order.

End dask.

(** ** The evaluators *)

Section evaluators.

Context {Individual : Type}.
Variable np_str : Q → string.
Variable finish_rank : Z → nat → nat.

(** [objective_nan_wrapper(ind, obj, verbose, **objective_kwargs)].  In the
    functions below [timeout] is the entry of that name in
    [**objective_kwargs], which this call binds to the invoker's parameter,
    and [objective_kwargs] holds the other entries. *)
Definition invoke (ind : Individual) (obj : ObjectiveFunction Individual)
    (verbose : Z) (timeout : option Q) (objective_kwargs : gmap string KwVal)
  : M PyVal :=
  if positional_clash ["individual"; "objective_function"] objective_kwargs
  then raise (TypeError "objective_nan_wrapper() got multiple values for argument")
  else objective_nan_wrapper ind obj verbose timeout objective_kwargs.

(** ** eval_objective_list *)
Definition eval_objective_list (ind : Individual)
    (objective_list : list (ObjectiveFunction Individual)) (verbose : Z)
    (timeout : option Q) (objective_kwargs : gmap string KwVal)
  : M (list Score) :=
  values ← mapM (λ obj, invoke ind obj verbose timeout objective_kwargs)
             objective_list;
  np_concatenate np_str values.

(** [eval_objective_list(ind, ..., timeout=timeout, **objective_kwargs)], as
    the dispatchers call it: of the parameters given by position or by name
    only [ind] can also be a key of [objective_kwargs]. *)
Definition eval_objective_list_task (ind : Individual)
    (objective_list : list (ObjectiveFunction Individual)) (verbose : Z)
    (timeout : option Q) (objective_kwargs : gmap string KwVal)
  : M (list Score) :=
  if positional_clash ["ind"] objective_kwargs
  then raise (TypeError "eval_objective_list() got multiple values for argument")
  else eval_objective_list ind objective_list verbose timeout objective_kwargs.

(** ** parallel_eval_objective_list

    The progress bar of [TqdmCallback] goes to the terminal and is not part
    of the result. *)
Definition parallel_eval_objective_list (individual_list : list Individual)
    (objective_list : list (ObjectiveFunction Individual)) (n_jobs : Z)
    (verbose : Z) (timeout : option Q) (n_expected_columns : option Z)
    (objective_kwargs : gmap string KwVal) : M (list (list Score)) :=
  let delayed_values :=
    (λ ind, eval_objective_list_task ind objective_list verbose timeout
              objective_kwargs) <$> individual_list in
  offspring_scores ← dask_compute finish_rank n_jobs delayed_values;
  match n_expected_columns with
  | Some n => mret (process_scores offspring_scores n)
  | None => mret offspring_scores
  end.

(** The same evaluation, one individual after the other. *)
Definition sequential_eval_objective_list (individual_list : list Individual)
    (objective_list : list (ObjectiveFunction Individual))
    (verbose : Z) (timeout : option Q) (n_expected_columns : option Z)
    (objective_kwargs : gmap string KwVal) : M (list (list Score)) :=
  offspring_scores ←
    mapM (λ ind, eval_objective_list_task ind objective_list verbose timeout
                   objective_kwargs) individual_list;
  match n_expected_columns with
  | Some n => mret (process_scores offspring_scores n)
  | None => mret offspring_scores
  end.

(** ** eval_objective_list_by_steps *)

(** The local variables of the loop. *)
Record StepLocals : Type := mkLocals {
  all_scores : list (list Score);
  scores : option (list Score);
  final_scores : option Score
}.

(** [objective_nan_wrapper(ind, obj, verbose, step=step, **objective_kwargs)] *)
Definition invoke_step (ind : Individual) (obj : ObjectiveFunction Individual)
    (verbose : Z) (step : nat) (timeout : option Q)
    (objective_kwargs : gmap string KwVal) : M PyVal :=
  if bool_decide (is_Some (objective_kwargs !! "step"))
  then raise (TypeError "got multiple values for keyword argument 'step'")
  else invoke ind obj verbose timeout
         (<["step" := KwInt (Z.of_nat step)]> objective_kwargs).

(** [all([s*w>t*w for s,t,w in zip(final_scores, threshold, signs)])] *)
Definition all_exceed (final_scores : Score) (threshold signs : list Q)
  : M bool :=
  ss ← py_iter final_scores;
  bs ← mapM (λ '(s, t, w), exceeds s t w) (zip (zip ss threshold) signs);
  mret (forallb id bs).

Fixpoint by_steps_loop (ind : Individual)
    (objective_list : list (ObjectiveFunction Individual))
    (objective_function_signs : list Q) (final_score_strategy : string)
    (thresholds : option (list (list Q))) (verbose : Z) (timeout : option Q)
    (objective_kwargs : gmap string KwVal)
    (steps : list nat) (locals : StepLocals) : M (list Score * Score) :=
  match steps with
  | [] =>
      sc ← read_local "scores" (scores locals);
      fs ← read_local "final_scores" (final_scores locals);
      mret (sc, fs)
  | step :: steps =>
      values ← mapM (λ obj, invoke_step ind obj verbose step timeout
                              objective_kwargs) objective_list;
      sc ← np_concatenate np_str values;
      let all := all_scores locals ++ [sc] in
      fs ← (if String.eqb final_score_strategy "mean"
            then Some <$> np_mean sc
            else if String.eqb final_score_strategy "last"
            then Some <$> np_last sc
            else mret (final_scores locals));
      stop ← match thresholds with
             | Some thresholds =>
                 threshold ← getitem thresholds step;
                 f ← read_local "final_scores" fs;
                 all_exceed f threshold objective_function_signs
             | None => mret false
             end;
      if stop : bool then
        f ← read_local "final_scores" fs;
        mret (sc, f)
      else
        by_steps_loop ind objective_list objective_function_signs
          final_score_strategy thresholds verbose timeout objective_kwargs
          steps (mkLocals all (Some sc) fs)
  end.

Definition eval_objective_list_by_steps (ind : Individual)
    (objective_list : list (ObjectiveFunction Individual)) (n_steps : Z)
    (objective_function_weights : list Q) (final_score_strategy : string)
    (thresholds : option (list (list Q))) (verbose : Z) (timeout : option Q)
    (objective_kwargs : gmap string KwVal) : M (list Score * Score) :=
  let objective_function_signs := np_sign <$> objective_function_weights in
  by_steps_loop ind objective_list objective_function_signs
    final_score_strategy thresholds verbose timeout objective_kwargs
    (seq 0 (Z.to_nat n_steps)) (mkLocals [] None None).

(** ** parallel_eval_objective_list_by_steps *)

Definition kw_thresholds (thresholds : option (list (list Q))) : KwVal :=
  match thresholds with
  | Some m => KwMat m
  | None => KwNone
  end.

Definition parallel_eval_objective_list_by_steps
    (individual_list : list Individual)
    (objective_list : list (ObjectiveFunction Individual))
    (objective_function_weights : list Q) (n_steps : Z)
    (final_score_strategy : string) (thresholds : option (list (list Q)))
    (n_jobs : Z) (verbose : Z) (timeout : option Q)
    (objective_kwargs : gmap string KwVal) : M (list (list Score)) :=
  let delayed_values :=
    (λ ind,
       eval_objective_list_task ind objective_list verbose timeout
         (<["n_steps" := KwInt n_steps]>
          (<["objective_function_weights" := KwVec objective_function_weights]>
           (<["final_score_strategy" := KwStr final_score_strategy]>
            (<["thresholds" := kw_thresholds thresholds]> objective_kwargs)))))
    <$> individual_list in
  dask_compute finish_rank n_jobs delayed_values.

End evaluators.

(** The reduction of one step's vector under the two strategies. *)
Definition reduce_step (final_score_strategy : string) (sc : list Score)
  : M (option Score) :=
  if String.eqb final_score_strategy "mean" then Some <$> np_mean sc
  else Some <$> np_last sc.

(** ** optimize_objective *)

(** Individuals that can be optimised: [ind.optimize(objective, steps=steps)]
    as one call. *)
Class Optimizable (Individual : Type) : Type :=
  optimize : Individual → ObjectiveFunction Individual → Z → Call.

(** stopit's signal, an instance of [Exception]. *)
Definition TimeoutException : PyExc :=
  mkExc (ExceptionSubclass "TimeoutException") "" "".

Definition is_TimeoutException (e : PyExc) : bool :=
  match exc_class e with
  | ExceptionSubclass name => String.eqb name "TimeoutException"
  | _ => false
  end.

(** A call under stopit's ThreadingTimeout: with a timeout that is set (not
    None, not zero) a timer raises TimeoutException inside the call when it
    is still running after [timeout] seconds. *)
Definition stopit_timeout (timeout : option Q) (c : Call) : Call :=
  match timeout with
  | Some t =>
      if Qeq_bool t 0 then c
      else if Qle_bool (elapsed c) t || Qle_bool (elapsed c) 0 then c
      else mkCall t [] (Raises TimeoutException)
  | None => c
  end.

(** [stopit.threading_timeoutable(default)] around a function that makes
    one call: the function runs with the call under the timeout, and the
    decorator gives [default] only when TimeoutException comes out of the
    function. *)
Definition threading_timeoutable {A} (default : A) (timeout : option Q)
    (func : Call → M A) (c : Call) : M A :=
  let m := func (stopit_timeout timeout c) in
  match timeout, outcome m with
  | Some t, Raises e =>
      if negb (Qeq_bool t 0) && is_TimeoutException e
      then Run (stdout m) (Returns default)
      else m
  | _, _ => m
  end.

(** The budget of the decorator ran out before the call ended. *)
Definition timed_out (timeout : option Q) (c : Call) : Prop :=
  match timeout with
  | Some t => ¬ (t == 0)%Q ∧ (t < elapsed c)%Q ∧ (0 < elapsed c)%Q
  | None => False
  end.

(** The function as written, on the call [ind.optimize] makes. *)
Definition optimize_objective_on (c : Call) (verbose : Z) : M PyVal :=
  match call_result c with
  | Returns value =>
      let value := if isinstance_Iterable value then value else list_of value in
      mret value
  | Raises e =>
      match exc_class e with
      | ExceptionSubclass _ =>
          when (2 <=? verbose)%Z
            (print "WARNING THIS INDIVIDUAL CAUSED AND EXCEPTION";;
             print (exc_str e);;
             print "");;
          when (3 <=? verbose)%Z
            (print (exc_trace e);;
             print "");;
          mret (Sequence [NaN])
      | FunctionTimedOut | BaseExceptionOnly _ => raise e
      end
  end.

Section optimizer.

Context `{Optimizable Individual}.

(** The function as written, before the decorator. *)
Definition optimize_objective_body (ind : Individual)
    (objective : ObjectiveFunction Individual) (steps : Z) (verbose : Z)
  : M PyVal :=
  optimize_objective_on (optimize ind objective steps) verbose.

Definition optimize_objective (ind : Individual)
    (objective : ObjectiveFunction Individual) (steps : Z) (verbose : Z)
    (timeout : option Q) : M PyVal :=
  threading_timeoutable (Scalar NaN) timeout
    (λ c, optimize_objective_on c verbose)
    (optimize ind objective steps).

End optimizer.

(** ** Concrete individuals and objectives *)

Module Examples.

Definition KeyboardInterrupt : PyExc :=
  mkExc (BaseExceptionOnly "KeyboardInterrupt") "" "".

(** A stand-in for numpy's text of a number: the fraction written out. *)
Definition np_str (q : Q) : string :=
  pretty (Qnum q) +:+ "/" +:+ pretty (Zpos (Qden q)).

(** Completion orders: the order of submission, and its reverse. *)
Definition in_order : Z → nat → nat := λ _ i, i.
Definition reversed : Z → nat → nat := λ _ i, 100 - i.

(** Objectives on individuals named by strings. *)
Definition interrupted : ObjectiveFunction string :=
  λ _ _, mkCall 0 [] (Raises KeyboardInterrupt).

Definition failing : ObjectiveFunction string :=
  λ _ _, mkCall 0 [] (Raises (ValueError "bad pipeline")).

Definition sleeps_5s : ObjectiveFunction string :=
  λ _ _, mkCall 5 [] (Returns (Scalar (Num 1))).

(** [obj1] has arity 1 and raises on the individual "B"; [obj2] has arity 2. *)
Definition obj1 : ObjectiveFunction string :=
  λ ind _, if String.eqb ind "B"
           then mkCall 0 [] (Raises (ValueError "bad pipeline"))
           else mkCall 0 [] (Returns (Scalar (Num 1))).

Definition obj2 : ObjectiveFunction string :=
  λ _ _, mkCall 0 [] (Returns (Sequence [Num 2; Num 3])).

(** An objective that reads the keyword [step]: it returns [[step, 10]]. *)
Definition stepped : ObjectiveFunction string :=
  λ _ kwargs,
    match kwargs !! "step" with
    | Some (KwInt z) => mkCall 0 [] (Returns (Sequence [Num (inject_Z z); Num 10]))
    | _ => mkCall 0 [] (Raises (TypeError "missing keyword step"))
    end.

(** Individuals that can be optimised. *)
Inductive Pipeline : Type := Tunable | Broken | Interrupted | Slow.

#[global] Instance Pipeline_optimize : Optimizable Pipeline :=
  λ ind _ _,
    match ind with
    | Tunable => mkCall 1 [] (Returns (Scalar (Num 1)))
    | Broken => mkCall 1 [] (Raises (ValueError "bad pipeline"))
    | Interrupted => mkCall 1 [] (Raises KeyboardInterrupt)
    | Slow => mkCall 60 [] (Returns (Scalar (Num 1)))
    end.

Definition accuracy : ObjectiveFunction Pipeline :=
  λ _ _, mkCall 0 [] (Returns (Scalar (Num 1))).

End Examples.

(** ** parallel_optimize_objective *)

(** [joblib.Parallel(n_jobs)(calls)]: a worker pool like dask's; the results
    come in the order of the calls and the first call that raises ends the
    run. *)
Definition joblib_Parallel {A} (finish_rank : Z → nat → nat) (n_jobs : Z)
    (calls : list (M A)) : M (list A) :=
  slots ← run_tasks (completion_order finish_rank n_jobs (length calls)) calls
           (replicate (length calls) None);
  mret (M := M) (omap (M := list) id slots).

(** The dispatcher of [optimize_objective].  It collects nothing: the list
    [Parallel] gives is dropped and the function returns None.  The
    parameters an individual holds are not part of [Call], so what
    [ind.optimize] changes in place is not embedded here;
    [objective_kwargs] is accepted and not used, as in the source. *)
Definition parallel_optimize_objective `{Optimizable Individual}
    (finish_rank : Z → nat → nat) (individual_list : list Individual)
    (objective : ObjectiveFunction Individual) (n_jobs : Z) (verbose : Z)
    (steps : Z) (timeout : option Q) (objective_kwargs : gmap string KwVal)
  : M () :=
  joblib_Parallel finish_rank n_jobs
    ((λ ind, optimize_objective ind objective steps verbose timeout)
       <$> individual_list);;
  mret ().

(** ** Helpers for the statements *)

(** The call as the invoker sees it: under the timeout when one is set. *)
Definition effective_call (timeout : option Q) (c : Call) : Call :=
  match timeout with
  | Some t => func_timeout t c
  | None => c
  end.

(** A call the invoker turns into a row: it returns a sequence or a bare
    value that is no str, or it raises [FunctionTimedOut] or an instance of
    [Exception]. *)
Definition absorbed (timeout : option Q) (c : Call) : Prop :=
  match call_result (effective_call timeout c) with
  | Returns (Scalar (Str _)) => False
  | Returns _ => True
  | Raises e =>
      match exc_class e with
      | BaseExceptionOnly _ => False
      | _ => True
      end
  end.

(** A call that raises an instance of [Exception] within the budget. *)
Definition fails_in_time (timeout : option Q) (c : Call) : Prop :=
  ∃ e name, call_result c = Raises e ∧ exc_class e = ExceptionSubclass name
            ∧ within_budget timeout c.

(** The evaluation of one step of the staged evaluator. *)
Definition eval_step {Individual : Type} (np_str : Q → string)
    (ind : Individual) (objective_list : list (ObjectiveFunction Individual))
    (verbose : Z) (step : nat) (timeout : option Q)
    (objective_kwargs : gmap string KwVal) : M (list Score) :=
  values ← mapM (λ obj, invoke_step ind obj verbose step timeout
                          objective_kwargs) objective_list;
  np_concatenate np_str values.

(** An outcome of [ind.optimize] that [optimize_objective] turns into a
    value: the budget ran out, or the call returned, or it raised an
    instance of [Exception]. *)
Definition optimize_absorbed (timeout : option Q) (c : Call) : Prop :=
  timed_out timeout c
  ∨ match call_result c with
    | Returns _ => True
    | Raises e => ∃ name, exc_class e = ExceptionSubclass name
    end.

Module MoreExamples.

(** An objective that runs func_timeout itself and lets its signal out. *)
Definition nested_timeout : ObjectiveFunction string :=
  λ _ _, mkCall 0 [] (Raises (mkExc FunctionTimedOut "Function timed out" "")).

(** An objective that returns a str of the sentinel's text on its own. *)
Definition says_invalid : ObjectiveFunction string :=
  λ _ _, mkCall 0 [] (Returns (Sequence [Str "INVALID"])).

(** An objective that returns at once. *)
Definition instant : ObjectiveFunction string :=
  λ _ _, mkCall 0 [] (Returns (Scalar (Num 1))).

(** An objective that raises ValueError after five seconds. *)
Definition slow_failure : ObjectiveFunction string :=
  λ _ _, mkCall 5 [] (Raises (ValueError "bad pipeline")).

(** An objective that returns [[1, 10]] at every step. *)
Definition one_ten : ObjectiveFunction string :=
  λ _ _, mkCall 0 [] (Returns (Sequence [Num 1; Num 10])).

End MoreExamples.

(** * Properties *)

Section process_scores_facts.

Lemma is_str_spec tag x : is_str tag x = true ↔ x = Str tag.
Proof.
  destruct x as [q| |s|]; simpl; try (split; [discriminate|congruence]).
  rewrite String.eqb_eq. split; congruence.
Qed.

Lemma contains_spec tag row : contains tag row = true ↔ Str tag ∈ row.
Proof.
  unfold contains. rewrite existsb_exists. split.
  - intros (x & Hx & Hs). apply is_str_spec in Hs as ->.
    by apply list_elem_of_In.
  - intros Hin. exists (Str tag). split; [by apply list_elem_of_In|].
    by apply is_str_spec.
Qed.

Lemma process_scores_step_length n scores i :
  length (process_scores_step n scores i) = length scores.
Proof.
  unfold process_scores_step.
  repeat case_match; by rewrite ?length_insert.
Qed.

(** After the turns [k, k+1, ..., k+m-1] the rows in that range are
    repaired and the others are as before. *)
Lemma process_scores_loop n m : ∀ k scores,
  k + m ≤ length scores →
  foldl (process_scores_step n) scores (seq k m)
  = take k scores ++ (repair_row n <$> take m (drop k scores))
    ++ drop (k + m) scores.
Proof.
  induction m as [|m IH]; intros k scores Hk; simpl.
  - by rewrite Nat.add_0_r, take_drop.
  - assert (is_Some (scores !! k)) as [row Hrow]
      by (apply lookup_lt_is_Some; lia).
    assert (process_scores_step n scores k = <[k := repair_row n row]> scores)
      as ->.
    { unfold process_scores_step, repair_row. rewrite Hrow.
      repeat case_match; try done. by rewrite list_insert_id. }
    rewrite IH by (rewrite length_insert; lia).
    rewrite !drop_insert_lt by lia.
    rewrite take_insert_lt by lia.
    rewrite (take_S_r scores k row Hrow).
    rewrite insert_app_r_alt by (rewrite length_take; lia).
    rewrite length_take, Nat.min_l by lia.
    rewrite Nat.sub_diag. simpl.
    rewrite (drop_S scores row k Hrow). simpl.
    rewrite <- app_assoc. simpl.
    do 3 f_equal. f_equal. lia.
Qed.

Lemma process_scores_map scores n :
  process_scores scores n = repair_row n <$> scores.
Proof.
  unfold process_scores.
  rewrite process_scores_loop by (simpl; lia).
  simpl. rewrite drop_0, firstn_all, drop_all. by rewrite app_nil_r.
Qed.

Lemma repair_row_repaired n row : row_repaired n row (repair_row n row).
Proof.
  unfold row_repaired, repair_row. split.
  - intros Hlt. apply Z.ltb_lt in Hlt as ->.
    destruct (contains "TIMEOUT" row) eqn:Hc.
    + split; [done|]. intros Hn. by apply contains_spec in Hc.
    + split; [|done]. intros Hin. apply contains_spec in Hin.
      unfold TIMEOUT in *. congruence.
  - intros Hge. by apply Z.ltb_ge in Hge as ->.
Qed.

End process_scores_facts.

(** C1: for every score matrix and width [n], [process_scores] gives a
    matrix with as many rows, in which a row that was shorter than [n] is
    [n] copies of "TIMEOUT" when it held "TIMEOUT" somewhere and [n] copies
    of "INVALID" otherwise, and a row of length [n] or more is the row it
    was. *)
Theorem process_scores_repairs_short_rows (scores : list (list Score)) (n : Z) :
  Forall2 (row_repaired n) scores (process_scores scores n).
Proof.
  rewrite process_scores_map.
  apply Forall2_fmap_r, Forall_Forall2_diag, Forall_forall.
  intros row _. apply repair_row_repaired.
Qed.

Lemma func_timeout_within t c :
  (elapsed c <= t)%Q →
  (∀ e, call_result c = Raises e → ∃ name, exc_class e = ExceptionSubclass name) →
  func_timeout t c = c.
Proof.
  intros Hle Hexc. unfold func_timeout.
  rewrite (proj2 (Qle_bool_iff _ _) Hle). simpl.
  destruct (call_result c) as [v|e] eqn:Hres; [done|].
  destruct (Hexc e eq_refl) as [name ->]. done.
Qed.

Lemma func_timeout_expired t c :
  (0 < t)%Q → (t < elapsed c)%Q →
  call_result (func_timeout t c)
  = Raises (mkExc FunctionTimedOut "Function timed out" "").
Proof.
  intros Hpos Hlate. unfold func_timeout.
  destruct (Qle_bool (elapsed c) t) eqn:Hle.
  { apply Qle_bool_iff in Hle. by apply Qlt_not_le in Hlate. }
  destruct (Qle_bool (elapsed c) 0) eqn:Hle0; [|done].
  apply Qle_bool_iff in Hle0. exfalso.
  apply (Qlt_irrefl 0). eapply Qlt_le_trans; [|exact Hle0].
  by eapply Qlt_trans.
Qed.

Lemma outcome_when_then {A} b (m : M ()) (k : M A) :
  (∃ out, m = Run out (Returns ())) →
  outcome (when b m;; k) = outcome k.
Proof. intros [out ->]. by destruct b. Qed.


(** ** The monad *)

Lemma returned_ret {A} (a : A) : returned (mret a) = Some a.
Proof. done. Qed.

Lemma returned_raise {A} (e : PyExc) : returned (raise (A := A) e) = None.
Proof. done. Qed.

Lemma returned_bind {A B} (m : M A) (k : A → M B) :
  returned (m ≫= k) = returned m ≫= (λ a, returned (k a)).
Proof.
  unfold returned, mbind, M_bind. by destruct (outcome m).
Qed.

Lemma returned_Some {A} (m : M A) a : returned m = Some a ↔ outcome m = Returns a.
Proof.
  unfold returned. destruct (outcome m); split; congruence.
Qed.

Lemma returned_None {A} (m : M A) : returned m = None ↔ ∃ e, outcome m = Raises e.
Proof.
  unfold returned. destruct (outcome m) as [a|e]; split; try done.
  - by intros [? ?].
  - eauto.
Qed.

Lemma outcome_bind_raises {A B} (m : M A) (k : A → M B) e :
  outcome m = Raises e → outcome (m ≫= k) = Raises e.
Proof. intros Hm. unfold mbind, M_bind. by rewrite Hm. Qed.

Lemma outcome_bind_returns {A B} (m : M A) (k : A → M B) a :
  outcome m = Returns a → outcome (m ≫= k) = outcome (k a).
Proof. intros Hm. unfold mbind, M_bind. by rewrite Hm. Qed.

Lemma returned_mapM {A B} (f : A → M B) (l : list A) :
  returned (mapM f l) = mapM (λ x, returned (f x)) l.
Proof.
  induction l as [|x l IH]; [done|].
  change (mapM f (x :: l)) with (y ← f x; k ← mapM f l; mret (y :: k)).
  change (mapM (λ x, returned (f x)) (x :: l))
    with (y ← returned (f x); k ← mapM (λ x, returned (f x)) l; mret (y :: k)).
  rewrite returned_bind.
  destruct (returned (f x)) as [y|]; [|done]. simpl.
  rewrite returned_bind, IH.
  by destruct (mapM _ l).
Qed.

(** ** dask.compute gives the results in the order of its arguments *)

Section dask_facts.

Context {A : Type}.
Implicit Types (tasks : list (M A)) (rs : list A).
Implicit Types (slots : list (option A)) (order : list nat).

Lemma fill_slots_cons rs slots i order :
  fill_slots rs slots (i :: order)
  = fill_slots rs (match rs !! i with
                   | Some r => <[i := Some r]> slots
                   | None => slots
                   end) order.
Proof. done. Qed.

Lemma fill_slots_length rs order : ∀ slots,
  length (fill_slots rs slots order) = length slots.
Proof.
  induction order as [|j order IH]; intros slots; [done|].
  rewrite fill_slots_cons, IH. destruct (rs !! j); by rewrite ?length_insert.
Qed.

Lemma fill_slots_untouched rs order i : ∀ slots,
  i ∉ order → fill_slots rs slots order !! i = slots !! i.
Proof.
  induction order as [|j order IH]; intros slots Hi; [done|].
  apply not_elem_of_cons in Hi as [Hij Hi].
  rewrite fill_slots_cons, IH by done.
  destruct (rs !! j); [|done]. by rewrite list_lookup_insert_ne.
Qed.

Lemma fill_slots_filled rs order i r : ∀ slots,
  i ∈ order → rs !! i = Some r → i < length slots →
  fill_slots rs slots order !! i = Some (Some r).
Proof.
  induction order as [|j order IH]; intros slots Hi Hr Hlen.
  - by apply elem_of_nil in Hi.
  - rewrite fill_slots_cons.
    destruct (decide (i ∈ order)) as [Hin|Hnotin].
    + apply IH; [done..|]. destruct (rs !! j); by rewrite ?length_insert.
    + apply elem_of_cons in Hi as [->|Hi]; [|done].
      rewrite fill_slots_untouched by done.
      rewrite Hr. by apply list_lookup_insert_eq.
Qed.

Lemma fill_slots_all rs order :
  order ≡ₚ seq 0 (length rs) →
  fill_slots rs (replicate (length rs) None) order = Some <$> rs.
Proof.
  intros Hperm. apply list_eq. intros i.
  destruct (rs !! i) as [r|] eqn:Hr.
  - rewrite list_lookup_fmap, Hr. simpl.
    pose proof (lookup_lt_Some _ _ _ Hr) as Hlt.
    apply fill_slots_filled; [|done|by rewrite length_replicate].
    rewrite Hperm. apply elem_of_seq. lia.
  - rewrite list_lookup_fmap, Hr. simpl.
    apply lookup_ge_None. apply lookup_ge_None in Hr.
    by rewrite fill_slots_length, length_replicate.
Qed.

Lemma omap_id_Some rs : omap id (Some <$> rs) = rs.
Proof. induction rs as [|r rs IH]; [done|]. csimpl. by rewrite IH. Qed.

(** When every task returns, the run returns, whatever the order. *)
Lemma run_tasks_all_return tasks rs :
  Forall2 (λ t r, outcome t = Returns r) tasks rs →
  ∀ order slots,
    outcome (run_tasks order tasks slots) = Returns (fill_slots rs slots order).
Proof.
  intros Hall. induction order as [|i order IH]; intros slots; [done|].
  rewrite fill_slots_cons. simpl.
  destruct (tasks !! i) as [t|] eqn:Ht.
  - destruct (Forall2_lookup_l _ _ _ _ _ Hall Ht) as (r & Hr & Hout).
    rewrite Hr. by rewrite (outcome_bind_returns _ _ _ Hout).
  - apply lookup_ge_None in Ht. rewrite (Forall2_length _ _ _ Hall) in Ht.
    apply lookup_ge_None in Ht. rewrite Ht. apply IH.
Qed.

(** When a task of the order raises, the run raises. *)
Lemma run_tasks_one_raises tasks i t e :
  tasks !! i = Some t → outcome t = Raises e →
  ∀ order slots, i ∈ order →
    ∃ e', outcome (run_tasks order tasks slots) = Raises e'.
Proof.
  intros Ht Hout. induction order as [|j order IH]; intros slots Hi.
  - by apply elem_of_nil in Hi.
  - simpl. destruct (tasks !! j) as [tj|] eqn:Htj.
    + destruct (outcome tj) as [r|e'] eqn:Hj.
      * rewrite (outcome_bind_returns _ _ _ Hj).
        apply IH. apply elem_of_cons in Hi as [->|Hi]; [|done]. congruence.
      * exists e'. by apply outcome_bind_raises.
    + apply IH. apply elem_of_cons in Hi as [->|Hi]; [|done]. congruence.
Qed.

Lemma completion_order_perm finish_rank num_workers n :
  completion_order finish_rank num_workers n ≡ₚ seq 0 n.
Proof. apply merge_sort_Permutation. Qed.

Lemma finishes_before_transitive finish_rank num_workers :
  Transitive (finishes_before finish_rank num_workers).
Proof. intros i j k. unfold finishes_before. lia. Qed.

Lemma finishes_before_total finish_rank num_workers :
  Total (finishes_before finish_rank num_workers).
Proof. intros i j. unfold finishes_before. lia. Qed.

Lemma position_in_lookup order : ∀ k i,
  NoDup order → order !! k = Some i → position_in order i = k.
Proof.
  induction order as [|j order IH]; intros k i Hnodup Hk; [done|].
  apply NoDup_cons in Hnodup as [Hj Hnodup]. simpl.
  destruct k as [|k]; simpl in Hk.
  - injection Hk as ->. by rewrite decide_True.
  - rewrite decide_False; [by rewrite (IH k i)|].
    intros ->. apply Hj. by eapply list_elem_of_lookup_2.
Qed.

Lemma StronglySorted_seq j n : StronglySorted le (seq j n).
Proof.
  revert j. induction n as [|n IH]; intros j; simpl; constructor; [done|].
  apply Forall_forall. intros k Hk. apply elem_of_seq in Hk. lia.
Qed.

Lemma StronglySorted_pullback {X} (f : X → nat) (l : list X) :
  StronglySorted le (f <$> l) → StronglySorted (λ x y, f x ≤ f y) l.
Proof.
  induction l as [|x l IH]; [constructor|].
  rewrite fmap_cons. intros Hs.
  apply StronglySorted_inv in Hs as [Hs Hall].
  constructor; [by apply IH|].
  by apply (Forall_fmap f (le (f x))).
Qed.

Lemma StronglySorted_by_position order :
  NoDup order →
  StronglySorted (λ i j, position_in order i ≤ position_in order j) order.
Proof.
  intros Hnodup.
  assert (position_in order <$> order = seq 0 (length order)) as Hpos.
  { apply list_eq. intros k. rewrite list_lookup_fmap.
    destruct (order !! k) as [i|] eqn:Hk; simpl.
    - rewrite (position_in_lookup order k i Hnodup Hk).
      symmetry. apply lookup_seq. split; [done|]. by eapply lookup_lt_Some.
    - symmetry. apply lookup_ge_None. rewrite length_seq.
      by apply lookup_ge_None. }
  pose proof (StronglySorted_seq 0 (length order)) as Hsorted.
  rewrite <- Hpos in Hsorted. by apply StronglySorted_pullback.
Qed.

(** Every order of the tasks is the completion order under some ranking:
    the model leaves the scheduler free. *)
Lemma completion_order_any order n num_workers :
  order ≡ₚ seq 0 n →
  completion_order (λ _, position_in order) num_workers n = order.
Proof.
  intros Hperm. unfold completion_order.
  assert (NoDup order) as Hnodup by (rewrite Hperm; apply NoDup_seq).
  pose proof (finishes_before_transitive (λ _, position_in order) num_workers).
  pose proof (finishes_before_total (λ _, position_in order) num_workers).
  apply StronglySorted_unique_strong with
    (R := finishes_before (λ _, position_in order) num_workers).
  - intros i j Hi Hj Hij Hji. unfold finishes_before in Hij, Hji.
    rewrite merge_sort_Permutation, <- Hperm in Hi.
    apply list_elem_of_lookup in Hi as [ki Hi].
    apply list_elem_of_lookup in Hj as [kj Hj].
    rewrite (position_in_lookup order ki i Hnodup Hi) in Hij, Hji.
    rewrite (position_in_lookup order kj j Hnodup Hj) in Hij, Hji.
    assert (ki = kj) as -> by lia. congruence.
  - by apply StronglySorted_merge_sort.
  - by apply StronglySorted_by_position.
  - by rewrite merge_sort_Permutation.
Qed.

(** The value [dask.compute] returns does not depend on the order in which
    the tasks complete: it is the list of what the tasks return, in the
    order of the tasks, and there is one exactly when every task returns. *)
Lemma dask_compute_returned finish_rank num_workers tasks :
  returned (dask_compute finish_rank num_workers tasks) = mapM returned tasks.
Proof.
  unfold dask_compute. rewrite returned_bind.
  pose proof (completion_order_perm finish_rank num_workers (length tasks))
    as Hperm.
  set (order := completion_order _ _ _) in *.
  destruct (mapM returned tasks) as [rs|] eqn:Hrs.
  - apply mapM_Some in Hrs.
    assert (Forall2 (λ t r, outcome t = Returns r) tasks rs) as Hall.
    { eapply Forall2_impl; [exact Hrs|]. intros t r. apply returned_Some. }
    pose proof (Forall2_length _ _ _ Hall) as Hlen.
    pose proof (run_tasks_all_return tasks rs Hall order
                  (replicate (length tasks) None)) as Hrun.
    apply returned_Some in Hrun. rewrite Hrun. simpl.
    rewrite returned_ret. f_equal.
    rewrite Hlen in *. rewrite fill_slots_all by done.
    apply omap_id_Some.
  - apply mapM_None in Hrs. apply Exists_exists in Hrs as (t & Hin & Hnone).
    apply list_elem_of_lookup in Hin as [i Hi].
    apply returned_None in Hnone as [e He].
    destruct (run_tasks_one_raises tasks i t e Hi He order
                (replicate (length tasks) None)) as [e' He'].
    { rewrite Hperm. apply elem_of_seq.
      pose proof (lookup_lt_Some _ _ _ Hi). lia. }
    assert (returned (run_tasks order tasks (replicate (length tasks) None))
            = None) as -> by (apply returned_None; eauto).
    done.
Qed.

End dask_facts.

(** ** objective_nan_wrapper *)

(** C2, as the code has it: when the objective function raises an instance
    of [Exception] and the call ends within the time budget (if one is
    set), [objective_nan_wrapper] returns the row ["INVALID"] and raises
    nothing. *)
Theorem objective_nan_wrapper_isolates_Exception {Individual : Type}
    (individual : Individual) (objective_function : ObjectiveFunction Individual)
    (verbose : Z) (timeout : option Q) (objective_kwargs : gmap string KwVal)
    (e : PyExc) (name : string) :
  call_result (objective_function individual objective_kwargs) = Raises e →
  exc_class e = ExceptionSubclass name →
  within_budget timeout (objective_function individual objective_kwargs) →
  outcome (objective_nan_wrapper individual objective_function verbose timeout
             objective_kwargs)
  = Returns (Sequence [INVALID]).
Proof.
  intros Hraise Hclass Hbudget. unfold objective_nan_wrapper.
  assert (match timeout with
          | Some t => func_timeout t (objective_function individual objective_kwargs)
          | None => objective_function individual objective_kwargs
          end = objective_function individual objective_kwargs) as ->.
  { destruct timeout as [t|]; [|done]. apply func_timeout_within; [done|].
    intros e' He'. rewrite Hraise in He'. injection He' as <-. eauto. }
  rewrite Hraise, Hclass.
  rewrite outcome_when_then by eauto.
  by rewrite outcome_when_then by eauto.
Qed.

Lemma objective_nan_wrapper_isolates_Exception_witness :
  outcome (objective_nan_wrapper "A" Examples.failing 5 (Some 1%Q) ∅)
  = Returns (Sequence [INVALID]).
Proof.
  apply (objective_nan_wrapper_isolates_Exception "A" Examples.failing 5
           (Some 1%Q) ∅ (ValueError "bad pipeline") "ValueError").
  - reflexivity.
  - reflexivity.
  - simpl. unfold Qle. simpl. lia.
Defined.

(** C2 as stated fails on two counts.  An objective function that raises
    KeyboardInterrupt, which is no instance of [Exception], is not turned
    into ["INVALID"]: with no timeout set the exception reaches the caller.
    And an objective function that raises ValueError after five seconds,
    under a timeout of one second, gives ["TIMEOUT"], not ["INVALID"]. *)
Lemma objective_nan_wrapper_propagates_KeyboardInterrupt :
  (call_result (Examples.interrupted "A" ∅) = Raises Examples.KeyboardInterrupt
   ∧ outcome (objective_nan_wrapper "A" Examples.interrupted 0 None ∅)
     = Raises Examples.KeyboardInterrupt
   ∧ outcome (objective_nan_wrapper "A" Examples.interrupted 0 None ∅)
     ≠ Returns (Sequence [INVALID]))
  ∧ (call_result (MoreExamples.slow_failure "A" ∅)
     = Raises (ValueError "bad pipeline")
     ∧ outcome (objective_nan_wrapper "A" MoreExamples.slow_failure 0
                  (Some 1%Q) ∅)
       = Returns (Sequence [TIMEOUT])
     ∧ outcome (objective_nan_wrapper "A" MoreExamples.slow_failure 0
                  (Some 1%Q) ∅)
       ≠ Returns (Sequence [INVALID])).
Proof.
  split; (split; [done|]); (split; [done|]); discriminate.
Qed.

(** C3, as the code has it: with a positive timeout set, an objective
    function whose call runs longer than the budget gives the row
    ["TIMEOUT"], whatever the call would have returned or raised. *)
Theorem objective_nan_wrapper_timeout {Individual : Type}
    (individual : Individual) (objective_function : ObjectiveFunction Individual)
    (verbose : Z) (t : Q) (objective_kwargs : gmap string KwVal) :
  (0 < t)%Q →
  (t < elapsed (objective_function individual objective_kwargs))%Q →
  outcome (objective_nan_wrapper individual objective_function verbose (Some t)
             objective_kwargs)
  = Returns (Sequence [TIMEOUT]).
Proof.
  intros Hpos Hlate. unfold objective_nan_wrapper.
  rewrite (func_timeout_expired _ _ Hpos Hlate). simpl.
  by rewrite outcome_when_then by eauto.
Qed.

Lemma objective_nan_wrapper_timeout_witness :
  outcome (objective_nan_wrapper "A" Examples.sleeps_5s 0 (Some 1%Q) ∅)
  = Returns (Sequence [TIMEOUT]).
Proof.
  apply (objective_nan_wrapper_timeout "A" Examples.sleeps_5s 0 1%Q ∅).
  - unfold Qlt. simpl. lia.
  - simpl. unfold Qlt. simpl. lia.
Defined.

(** C3 as stated fails for a budget that is not positive: a call that ends
    at once has run longer than a budget of minus one second, yet the
    thread has ended when func_timeout looks and the value comes back. *)
Lemma objective_nan_wrapper_negative_budget :
  (-1 < elapsed (MoreExamples.instant "A" ∅))%Q
  ∧ outcome (objective_nan_wrapper "A" MoreExamples.instant 0 (Some (-1)%Q) ∅)
    = Returns (Sequence [Num 1])
  ∧ outcome (objective_nan_wrapper "A" MoreExamples.instant 0 (Some (-1)%Q) ∅)
    ≠ Returns (Sequence [TIMEOUT]).
Proof. split; [by unfold Qlt|]. split; [done|discriminate]. Qed.

(** ** parallel_eval_objective_list *)

Lemma mapM_fmap_option {A B C} (g : B → option C) (f : A → B) (l : list A) :
  mapM g (f <$> l) = mapM (λ x, g (f x)) l.
Proof.
  induction l as [|x l IH]; [done|].
  change (mapM g (f <$> x :: l)) with (y ← g (f x); k ← mapM g (f <$> l); mret (y :: k)).
  by rewrite IH.
Qed.

Section dispatcher_facts.

Context {Individual : Type}.
Variable np_str : Q → string.
Implicit Types (inds : list Individual).
Implicit Types (objs : list (ObjectiveFunction Individual)).

(** The dispatcher returns what the evaluation of one individual after the
    other returns, and returns exactly when that one does. *)
Lemma parallel_eval_returned finish_rank inds objs n_jobs verbose timeout
    n_expected_columns kwargs :
  returned (parallel_eval_objective_list np_str finish_rank inds objs n_jobs
              verbose timeout n_expected_columns kwargs)
  = returned (sequential_eval_objective_list np_str inds objs verbose timeout
                n_expected_columns kwargs).
Proof.
  unfold parallel_eval_objective_list, sequential_eval_objective_list.
  rewrite !returned_bind, dask_compute_returned, returned_mapM.
  by rewrite mapM_fmap_option.
Qed.

(** Row [i] of the matrix is made from individual [i] alone. *)
Lemma sequential_eval_rows inds objs verbose timeout n_expected_columns kwargs m :
  returned (sequential_eval_objective_list np_str inds objs verbose timeout
              n_expected_columns kwargs) = Some m →
  ∀ i, m !! i
       = inds !! i ≫= λ ind,
           match n_expected_columns with
           | Some n => repair_row n
           | None => id
           end <$> returned (eval_objective_list_task np_str ind objs verbose
                               timeout kwargs).
Proof.
  unfold sequential_eval_objective_list.
  rewrite returned_bind, returned_mapM.
  destruct (mapM _ inds) as [rows|] eqn:Hrows; [|done].
  apply mapM_Some in Hrows. simpl. intros Hm i.
  assert (m = match n_expected_columns with
              | Some n => repair_row n
              | None => id
              end <$> rows) as ->.
  { destruct n_expected_columns as [n|]; simpl in Hm.
    - rewrite returned_ret in Hm. injection Hm as <-. apply process_scores_map.
    - rewrite returned_ret in Hm. injection Hm as <-. by rewrite list_fmap_id. }
  rewrite list_lookup_fmap.
  destruct (inds !! i) as [ind|] eqn:Hind; simpl.
  - destruct (Forall2_lookup_l _ _ _ _ _ Hrows Hind) as (row & -> & ->). done.
  - apply lookup_ge_None in Hind. rewrite (Forall2_length _ _ _ Hrows) in Hind.
    apply lookup_ge_None in Hind. by rewrite Hind.
Qed.

Lemma sequential_eval_length inds objs verbose timeout n_expected_columns kwargs m :
  returned (sequential_eval_objective_list np_str inds objs verbose timeout
              n_expected_columns kwargs) = Some m →
  length m = length inds.
Proof.
  intros Hm. pose proof (sequential_eval_rows _ _ _ _ _ _ _ Hm) as Hrows.
  apply Nat.le_antisymm.
  - destruct (decide (length m ≤ length inds)) as [|Hn]; [done|].
    assert (is_Some (m !! length inds)) as [row Hrow]
      by (apply lookup_lt_is_Some; lia).
    rewrite Hrows in Hrow.
    by rewrite (proj2 (lookup_ge_None inds (length inds))) in Hrow by lia.
  - destruct (decide (length inds ≤ length m)) as [|Hn]; [done|].
    assert (m !! length m = None) as Hnone by (by apply lookup_ge_None).
    assert (is_Some (inds !! length m)) as [ind Hind]
      by (apply lookup_lt_is_Some; lia).
    rewrite Hrows, Hind in Hnone. simpl in Hnone.
    unfold sequential_eval_objective_list in Hm.
    rewrite returned_bind, returned_mapM in Hm.
    destruct (mapM _ inds) as [rows|] eqn:Hmap; [|done].
    apply mapM_Some in Hmap.
    destruct (Forall2_lookup_l _ _ _ _ _ Hmap Hind) as (row & _ & Hrow).
    by rewrite Hrow in Hnone.
Qed.

End dispatcher_facts.

(** C7: for every individual list and objective list, the matrix
    [parallel_eval_objective_list] returns is the same for any two numbers
    of jobs and any two orders in which the tasks complete (for n_jobs=1 and
    n_jobs=4 among them); it is the matrix of the evaluation of one
    individual after the other, row [i] for individual [i]; and putting
    another individual at position [j] changes no row but row [j]. *)
Theorem parallel_eval_objective_list_input_order {Individual : Type}
    (np_str : Q → string) (finish_rank finish_rank' : Z → nat → nat)
    (n_jobs n_jobs' : Z)
    (individual_list : list Individual)
    (objective_list : list (ObjectiveFunction Individual))
    (verbose : Z) (timeout : option Q) (n_expected_columns : option Z)
    (objective_kwargs : gmap string KwVal) :
  let matrix := λ finish_rank n_jobs individual_list,
    returned (parallel_eval_objective_list np_str finish_rank individual_list
                objective_list n_jobs verbose timeout n_expected_columns
                objective_kwargs) in
  matrix finish_rank 1%Z individual_list = matrix finish_rank' 4%Z individual_list
  ∧ matrix finish_rank n_jobs individual_list
    = matrix finish_rank' n_jobs' individual_list
  ∧ matrix finish_rank n_jobs individual_list
    = returned (sequential_eval_objective_list np_str individual_list
                  objective_list verbose timeout n_expected_columns
                  objective_kwargs)
  ∧ ∀ (j : nat) (other : Individual) (m m' : list (list Score)),
      matrix finish_rank n_jobs individual_list = Some m →
      matrix finish_rank' n_jobs' (<[j := other]> individual_list) = Some m' →
      length m' = length m ∧ ∀ i, i ≠ j → m' !! i = m !! i.
Proof.
  intros matrix. unfold matrix.
  rewrite !parallel_eval_returned.
  do 3 (split; [done|]).
  intros j other m m' Hm Hm'. rewrite parallel_eval_returned in Hm'. split.
  - apply sequential_eval_length in Hm, Hm'.
    by rewrite Hm, Hm', length_insert.
  - intros i Hij.
    rewrite (sequential_eval_rows _ _ _ _ _ _ _ _ Hm i).
    rewrite (sequential_eval_rows _ _ _ _ _ _ _ _ Hm' i).
    by rewrite list_lookup_insert_ne.
Qed.

(** The scenario of three individuals and two objectives, where the first
    objective raises on the second individual. *)
Example parallel_eval_scenario :
  returned (parallel_eval_objective_list Examples.np_str Examples.reversed
              ["A"; "B"; "C"] [Examples.obj1; Examples.obj2] 4 0 None (Some 3%Z) ∅)
  = Some [[Num 1; Num 2; Num 3];
          [INVALID; Str "2/1"; Str "3/1"];
          [Num 1; Num 2; Num 3]].
Proof. vm_compute. reflexivity. Qed.

Lemma parallel_eval_objective_list_input_order_witness :
  let healthy := [[Num 1; Num 2; Num 3]; [Num 1; Num 2; Num 3]; [Num 1; Num 2; Num 3]] in
  let one_failed := [[Num 1; Num 2; Num 3];
                     [INVALID; Str "2/1"; Str "3/1"];
                     [Num 1; Num 2; Num 3]] in
  length one_failed = length healthy
  ∧ one_failed !! 0 = healthy !! 0
  ∧ one_failed !! 2 = healthy !! 2.
Proof.
  intros healthy one_failed.
  destruct (parallel_eval_objective_list_input_order Examples.np_str
              Examples.in_order Examples.reversed 1 4 ["A"; "A"; "C"]
              [Examples.obj1; Examples.obj2] 0 None (Some 3%Z) ∅)
    as (_ & _ & _ & Hrows).
  destruct (Hrows 1 "B" healthy one_failed) as [Hlen Hother].
  - vm_compute. reflexivity.
  - vm_compute. reflexivity.
  - split; [exact Hlen|]. split; apply Hother; lia.
Defined.

(** ** eval_objective_list_by_steps *)

(** C10: with [n_steps] zero (or negative) the body of the loop never runs,
    and the final [return scores, final_scores] reads a variable that was
    never assigned: the call raises UnboundLocalError for every individual,
    objective list and setting. *)
Theorem eval_objective_list_by_steps_needs_a_step {Individual : Type}
    (np_str : Q → string) (ind : Individual)
    (objective_list : list (ObjectiveFunction Individual)) (n_steps : Z)
    (objective_function_weights : list Q) (final_score_strategy : string)
    (thresholds : option (list (list Q))) (verbose : Z) (timeout : option Q)
    (objective_kwargs : gmap string KwVal) :
  (n_steps ≤ 0)%Z →
  eval_objective_list_by_steps np_str ind objective_list n_steps
    objective_function_weights final_score_strategy thresholds verbose timeout
    objective_kwargs
  = raise (UnboundLocalError "scores").
Proof.
  intros Hn. unfold eval_objective_list_by_steps.
  by replace (Z.to_nat n_steps) with 0 by lia.
Qed.

Lemma eval_objective_list_by_steps_needs_a_step_witness :
  eval_objective_list_by_steps Examples.np_str "A" [Examples.obj2] 0 [1%Q]
    "mean" None 0 None ∅
  = raise (UnboundLocalError "scores").
Proof.
  apply (eval_objective_list_by_steps_needs_a_step Examples.np_str "A"
           [Examples.obj2] 0 [1%Q] "mean" None 0 None ∅).
  lia.
Defined.

(** C4 fails on the code: the reduction reads the vector of the current
    step, not the history.  With an objective that returns [[step, 10]] and
    two steps, the history is [[0, 10], [1, 10]]; "mean" gives the single
    number 11/2, the mean of the last vector over its objectives, where the
    mean across the steps is [[1/2, 10]]; "last" gives the single number 10,
    the last element of the last vector, where the last vector is
    [[1, 10]]. *)
Theorem eval_objective_list_by_steps_reduces_current_step (np_str : Q → string) :
  outcome (eval_objective_list_by_steps np_str "A" [Examples.stepped] 2
             [1%Q; 1%Q] "mean" None 0 None ∅)
  = Returns ([Num 1; Num 10], Num (11 # 2))
  ∧ outcome (eval_objective_list_by_steps np_str "A" [Examples.stepped] 2
               [1%Q; 1%Q] "last" None 0 None ∅)
    = Returns ([Num 1; Num 10], Num 10).
Proof. split; vm_compute; reflexivity. Qed.

Lemma np_mean_is_a_number (a : list Score) (x : Score) :
  outcome (np_mean a) = Returns x → x = NaN ∨ ∃ q, x = Num q.
Proof.
  unfold np_mean.
  destruct (existsb is_none a || existsb is_text a); [done|].
  destruct (existsb is_nan a); [intros [= <-]; by left|].
  destruct a; intros [= <-]; eauto.
Qed.

Lemma all_exceed_number (x : Score) (threshold signs : list Q) :
  x = NaN ∨ (∃ q, x = Num q) →
  all_exceed x threshold signs = raise (TypeError "object is not iterable").
Proof. by intros [->|[q ->]]. Qed.

(** C5 fails on the code, by the defect of C4: under "mean" the final score
    is one number, and the early-stop test iterates over it.  With
    thresholds given, the staged evaluator never returns, whatever the
    individual, the objectives, the number of steps and the thresholds: no
    step stops early with its scores, and the last step's scores are not
    returned either. *)
Theorem eval_objective_list_by_steps_mean_thresholds_never_returns
    {Individual : Type} (np_str : Q → string) (ind : Individual)
    (objective_list : list (ObjectiveFunction Individual)) (n_steps : Z)
    (objective_function_weights : list Q) (thresholds : list (list Q))
    (verbose : Z) (timeout : option Q) (objective_kwargs : gmap string KwVal) :
  returned (eval_objective_list_by_steps np_str ind objective_list n_steps
              objective_function_weights "mean" (Some thresholds) verbose
              timeout objective_kwargs)
  = None.
Proof.
  unfold eval_objective_list_by_steps.
  destruct (Z.to_nat n_steps) as [|k]; [done|].
  rewrite <- cons_seq. cbn [by_steps_loop].
  rewrite returned_bind.
  destruct (returned (mapM _ objective_list)) as [values|]; [|done]. cbn [mbind option_bind].
  rewrite returned_bind.
  destruct (returned (np_concatenate np_str values)) as [sc|]; [|done].
  cbn [mbind option_bind String.eqb Ascii.eqb Bool.eqb].
  rewrite returned_bind.
  destruct (outcome (np_mean sc)) as [x|e] eqn:Hmean.
  - assert (returned (Some <$> np_mean sc) = Some (Some x)) as ->.
    { unfold returned, fmap, M_fmap. by rewrite Hmean. }
    cbn [mbind option_bind]. rewrite returned_bind.
    assert (returned (threshold ← getitem thresholds 0;
                      f ← read_local "final_scores" (Some x);
                      all_exceed f threshold (np_sign <$> objective_function_weights))
            = None) as ->; [|done].
    rewrite returned_bind.
    destruct (returned (getitem thresholds 0)) as [threshold|]; [|done].
    cbn [mbind option_bind]. rewrite returned_bind. cbn.
    by rewrite (all_exceed_number x _ _ (np_mean_is_a_number sc x Hmean)).
  - assert (returned (Some <$> np_mean sc) = None) as ->; [|done].
    unfold returned, fmap, M_fmap. by rewrite Hmean.
Qed.

(** Five steps, thresholds that the first step already exceeds: the call
    raises TypeError at the first test. *)
Example eval_objective_list_by_steps_thresholds_TypeError :
  outcome (eval_objective_list_by_steps Examples.np_str "A" [Examples.obj2] 5
             [1%Q; 1%Q] "mean"
             (Some [[0%Q; 0%Q]; [0%Q; 0%Q]; [0%Q; 0%Q]; [0%Q; 0%Q]; [0%Q; 0%Q]])
             0 None ∅)
  = Raises (TypeError "object is not iterable")
  ∧ outcome (eval_objective_list_by_steps Examples.np_str "A" [Examples.obj2] 5
               [1%Q; 1%Q] "last"
               (Some [[0%Q; 0%Q]; [0%Q; 0%Q]; [0%Q; 0%Q]; [0%Q; 0%Q]; [0%Q; 0%Q]])
               0 None ∅)
    = Raises (TypeError "object is not iterable").
Proof. split; vm_compute; reflexivity. Qed.

(** ** parallel_eval_objective_list_by_steps *)

Lemma bind_ret_r {A} (m : M A) : m ≫= mret = m.
Proof.
  destruct m as [out [a|e]]; unfold mbind, M_bind; simpl; [|done].
  by rewrite app_nil_r.
Qed.

(** C6 fails on the code: the staged dispatcher builds its tasks from
    [eval_objective_list], not from [eval_objective_list_by_steps].  It is
    the plain dispatcher without width repair, with the staged settings
    handed on to the objective functions as keyword arguments; it returns
    one score vector per individual, no pair, and runs no step. *)
Theorem parallel_eval_objective_list_by_steps_is_plain_dispatch
    {Individual : Type} (np_str : Q → string) (finish_rank : Z → nat → nat)
    (individual_list : list Individual)
    (objective_list : list (ObjectiveFunction Individual))
    (objective_function_weights : list Q) (n_steps : Z)
    (final_score_strategy : string) (thresholds : option (list (list Q)))
    (n_jobs : Z) (verbose : Z) (timeout : option Q)
    (objective_kwargs : gmap string KwVal) :
  parallel_eval_objective_list_by_steps np_str finish_rank individual_list
    objective_list objective_function_weights n_steps final_score_strategy
    thresholds n_jobs verbose timeout objective_kwargs
  = parallel_eval_objective_list np_str finish_rank individual_list
      objective_list n_jobs verbose timeout None
      (<["n_steps" := KwInt n_steps]>
       (<["objective_function_weights" := KwVec objective_function_weights]>
        (<["final_score_strategy" := KwStr final_score_strategy]>
         (<["thresholds" := kw_thresholds thresholds]> objective_kwargs)))).
Proof.
  unfold parallel_eval_objective_list_by_steps, parallel_eval_objective_list.
  symmetry. apply bind_ret_r.
Qed.

(** One individual, three steps asked for: the staged evaluator gives the
    pair of the last vector and its reduction, the staged dispatcher gives
    the bare vector of a single evaluation. *)
Example parallel_eval_objective_list_by_steps_no_pairs :
  outcome (eval_objective_list_by_steps Examples.np_str "A" [Examples.obj2] 3
             [1%Q; 1%Q] "mean" None 0 None ∅)
  = Returns ([Num 2; Num 3], Num (5 # 2))
  ∧ outcome (parallel_eval_objective_list_by_steps Examples.np_str
               Examples.in_order ["A"] [Examples.obj2] [1%Q; 1%Q] 3 "mean" None
               1 0 None ∅)
    = Returns [[Num 2; Num 3]].
Proof. split; vm_compute; reflexivity. Qed.

(** ** optimize_objective *)

Lemma stopit_timeout_in_time timeout (c : Call) :
  ¬ timed_out timeout c → stopit_timeout timeout c = c.
Proof.
  unfold stopit_timeout, timed_out.
  destruct timeout as [t|]; [|done]. intros Hin.
  destruct (Qeq_bool t 0) eqn:Hzero; [done|].
  destruct (Qle_bool (elapsed c) t) eqn:Hle; [done|].
  destruct (Qle_bool (elapsed c) 0) eqn:Hle0; [done|].
  exfalso. apply Hin. split; [|split].
  - intros Heq. apply Qeq_bool_iff in Heq. congruence.
  - apply Qnot_le_lt. intros Hle'. apply Qle_bool_iff in Hle'. congruence.
  - apply Qnot_le_lt. intros Hle'. apply Qle_bool_iff in Hle'. congruence.
Qed.

Lemma stopit_timeout_expired timeout (c : Call) :
  timed_out timeout c →
  call_result (stopit_timeout timeout c) = Raises TimeoutException.
Proof.
  unfold stopit_timeout, timed_out.
  destruct timeout as [t|]; [|done]. intros (Hnz & Hlate & Hpos).
  destruct (Qeq_bool t 0) eqn:Hzero.
  { by apply Qeq_bool_iff in Hzero. }
  destruct (Qle_bool (elapsed c) t) eqn:Hle.
  { apply Qle_bool_iff in Hle. by apply Qlt_not_le in Hlate. }
  destruct (Qle_bool (elapsed c) 0) eqn:Hle0; [|done].
  apply Qle_bool_iff in Hle0. by apply Qlt_not_le in Hpos.
Qed.

Lemma optimize_objective_on_outcome (c : Call) verbose :
  outcome (optimize_objective_on c verbose)
  = match call_result c with
    | Returns value =>
        Returns (if isinstance_Iterable value then value else list_of value)
    | Raises e =>
        match exc_class e with
        | ExceptionSubclass _ => Returns (Sequence [NaN])
        | FunctionTimedOut | BaseExceptionOnly _ => Raises e
        end
    end.
Proof.
  unfold optimize_objective_on.
  destruct (call_result c) as [value|e]; [done|].
  destruct (exc_class e); [done| |done].
  rewrite outcome_when_then by (eexists; reflexivity).
  by rewrite outcome_when_then by (eexists; reflexivity).
Qed.

Section optimizer_facts.

Context `{Optimizable Individual}.
Implicit Types (ind : Individual) (objective : ObjectiveFunction Individual).

(** The handler of the function catches stopit's signal, so the default of
    the decorator is never what the caller gets. *)
Lemma optimize_objective_under_timeout ind objective steps verbose timeout :
  optimize_objective ind objective steps verbose timeout
  = optimize_objective_on (stopit_timeout timeout (optimize ind objective steps))
      verbose.
Proof.
  unfold optimize_objective, threading_timeoutable. cbv zeta beta.
  destruct (outcome (optimize_objective_on
                       (stopit_timeout timeout (optimize ind objective steps))
                       verbose)) as [v|e] eqn:Hout; [by destruct timeout|].
  destruct timeout as [t|]; [|done].
  rewrite optimize_objective_on_outcome in Hout.
  assert (is_TimeoutException e = false) as ->;
    [|by rewrite andb_false_r].
  unfold is_TimeoutException.
  destruct (call_result _) as [v|e']; [done|].
  destruct (exc_class e') eqn:Hclass; [|done|];
    injection Hout as <-; by rewrite Hclass.
Qed.

Lemma optimize_objective_in_time ind objective steps verbose timeout :
  ¬ timed_out timeout (optimize ind objective steps) →
  optimize_objective ind objective steps verbose timeout
  = optimize_objective_body ind objective steps verbose.
Proof.
  intros Hin. rewrite optimize_objective_under_timeout.
  by rewrite stopit_timeout_in_time.
Qed.

Lemma optimize_objective_expired ind objective steps verbose timeout :
  timed_out timeout (optimize ind objective steps) →
  outcome (optimize_objective ind objective steps verbose timeout)
  = Returns (Sequence [NaN]).
Proof.
  intros Hlate. rewrite optimize_objective_under_timeout.
  rewrite optimize_objective_on_outcome.
  by rewrite (stopit_timeout_expired _ _ Hlate).
Qed.

Lemma optimize_objective_Exception ind objective steps verbose timeout e name :
  call_result (optimize ind objective steps) = Raises e →
  exc_class e = ExceptionSubclass name →
  outcome (optimize_objective ind objective steps verbose timeout)
  = Returns (Sequence [NaN]).
Proof.
  intros Hraise Hclass. rewrite optimize_objective_under_timeout.
  rewrite optimize_objective_on_outcome. unfold stopit_timeout.
  destruct timeout as [t|];
    [destruct (Qeq_bool t 0); [|destruct (_ || _)]|];
    simpl; by rewrite ?Hraise, ?Hclass.
Qed.

End optimizer_facts.

(** C8, as the code has it: [optimize_objective] gives the row [[NaN]] when
    the time budget runs out (stopit's signal is raised inside the
    call and the handler catches it) and when [ind.optimize] raises an
    instance of [Exception]; in both cases it returns, raises nothing, and
    the value is NaN, not a "TIMEOUT" or "INVALID" tag. *)
Theorem optimize_objective_failure_is_nan `{Optimizable Individual}
    (ind : Individual) (objective : ObjectiveFunction Individual)
    (steps verbose : Z) (timeout : option Q) :
  (timed_out timeout (optimize ind objective steps) →
     outcome (optimize_objective ind objective steps verbose timeout)
     = Returns (Sequence [NaN]))
  ∧ (∀ e name,
       call_result (optimize ind objective steps) = Raises e →
       exc_class e = ExceptionSubclass name →
       outcome (optimize_objective ind objective steps verbose timeout)
       = Returns (Sequence [NaN])).
Proof.
  split.
  - apply optimize_objective_expired.
  - intros e name. apply optimize_objective_Exception.
Qed.

Lemma optimize_objective_failure_is_nan_witness :
  outcome (optimize_objective Examples.Slow Examples.accuracy 5 0 (Some 1%Q))
  = Returns (Sequence [NaN])
  ∧ outcome (optimize_objective Examples.Broken Examples.accuracy 5 0 (Some 2%Q))
    = Returns (Sequence [NaN]).
Proof.
  split.
  - apply (proj1 (optimize_objective_failure_is_nan Examples.Slow
                    Examples.accuracy 5 0 (Some 1%Q))).
    split; [discriminate|]. split; unfold Qlt; simpl; lia.
  - apply (proj2 (optimize_objective_failure_is_nan Examples.Broken
                    Examples.accuracy 5 0 (Some 2%Q))
             (ValueError "bad pipeline") "ValueError").
    + reflexivity.
    + reflexivity.
Defined.

(** C8 as stated fails: [ind.optimize] raising KeyboardInterrupt, which is
    no instance of [Exception], is not turned into NaN; the exception
    reaches the caller of [optimize_objective]. *)
Lemma optimize_objective_propagates_KeyboardInterrupt :
  call_result (optimize Examples.Interrupted Examples.accuracy 5)
  = Raises Examples.KeyboardInterrupt
  ∧ outcome (optimize_objective Examples.Interrupted Examples.accuracy 5 0 None)
    = Raises Examples.KeyboardInterrupt.
Proof. split; reflexivity. Qed.

(** C9, as the code has it: the two failures of [optimize_objective] have
    the same shape.  An instance of [Exception] raised by [ind.optimize]
    and a time budget that runs out both give the one-element list
    [[NaN]], a sequence: the timeout reaches the same handler, and the bare
    NaN the decorator holds as its default is not what the caller gets. *)
Theorem optimize_objective_failure_shapes `{Optimizable Individual}
    (failing slow : Individual) (objective : ObjectiveFunction Individual)
    (steps verbose : Z) (t : Q) (e : PyExc) (name : string) :
  call_result (optimize failing objective steps) = Raises e →
  exc_class e = ExceptionSubclass name →
  timed_out (Some t) (optimize slow objective steps) →
  outcome (optimize_objective failing objective steps verbose (Some t))
  = outcome (optimize_objective slow objective steps verbose (Some t))
  ∧ outcome (optimize_objective slow objective steps verbose (Some t))
    = Returns (Sequence [NaN])
  ∧ isinstance_Iterable (Sequence [NaN]) = true.
Proof.
  intros Hraise Hclass Hlate.
  rewrite (optimize_objective_expired slow) by done.
  by rewrite (optimize_objective_Exception _ _ _ _ _ _ _ Hraise Hclass).
Qed.

Lemma optimize_objective_failure_shapes_witness :
  outcome (optimize_objective Examples.Broken Examples.accuracy 5 0 (Some 30%Q))
  = outcome (optimize_objective Examples.Slow Examples.accuracy 5 0 (Some 30%Q))
  ∧ outcome (optimize_objective Examples.Slow Examples.accuracy 5 0 (Some 30%Q))
    = Returns (Sequence [NaN])
  ∧ isinstance_Iterable (Sequence [NaN]) = true.
Proof.
  apply (optimize_objective_failure_shapes Examples.Broken Examples.Slow
           Examples.accuracy 5 0 30%Q (ValueError "bad pipeline") "ValueError").
  - reflexivity.
  - reflexivity.
  - split; [discriminate|]. split; unfold Qlt; simpl; lia.
Defined.

(** C9 as stated fails: a timeout does not give the bare NaN.  With a
    budget of thirty seconds and a call of sixty, the caller gets the list
    [[NaN]], which is a sequence.  And not every exception gives [[NaN]]:
    KeyboardInterrupt, no instance of [Exception], gives no result at
    all. *)
Lemma optimize_objective_timeout_gives_list :
  ((30 < elapsed (optimize Examples.Slow Examples.accuracy 5))%Q
   ∧ outcome (optimize_objective Examples.Slow Examples.accuracy 5 0
                (Some 30%Q))
     = Returns (Sequence [NaN])
   ∧ outcome (optimize_objective Examples.Slow Examples.accuracy 5 0
                (Some 30%Q))
     ≠ Returns (Scalar NaN))
  ∧ (call_result (optimize Examples.Interrupted Examples.accuracy 5)
     = Raises Examples.KeyboardInterrupt
     ∧ outcome (optimize_objective Examples.Interrupted Examples.accuracy 5 0
                  (Some 30%Q))
       ≠ Returns (Sequence [NaN])).
Proof.
  split.
  - split; [by unfold Qlt|]. split; [done|discriminate].
  - split; [done|discriminate].
Qed.

(** ** Further properties *)

Lemma repair_row_idempotent n row :
  repair_row n (repair_row n row) = repair_row n row.
Proof.
  unfold repair_row.
  destruct (Z.of_nat (length row) <? n)%Z eqn:Hlt.
  - apply Z.ltb_lt in Hlt.
    destruct (contains "TIMEOUT" row); rewrite length_replicate;
      by rewrite (proj2 (Z.ltb_ge _ _)) by lia.
  - by rewrite Hlt.
Qed.

(** Normalising twice with the same width changes nothing more. *)
Theorem process_scores_idempotent (scores : list (list Score)) (n : Z) :
  process_scores (process_scores scores n) n = process_scores scores n.
Proof.
  rewrite !process_scores_map, <- list_fmap_compose.
  apply list_fmap_ext. intros _ row _. apply repair_row_idempotent.
Qed.

(** After normalisation no row is shorter than the width. *)
Theorem process_scores_rows_wide_enough (scores : list (list Score)) (n : Z) :
  Forall (λ row, (n ≤ Z.of_nat (length row))%Z) (process_scores scores n).
Proof.
  rewrite process_scores_map. apply Forall_fmap, Forall_forall.
  intros row _. simpl. unfold repair_row.
  destruct (Z.of_nat (length row) <? n)%Z eqn:Hlt.
  - apply Z.ltb_lt in Hlt.
    destruct (contains "TIMEOUT" row); rewrite length_replicate; lia.
  - by apply Z.ltb_ge in Hlt.
Qed.

(** A bare number returned in time comes back as a one-element row. *)
Theorem objective_nan_wrapper_wraps_number {Individual : Type}
    (individual : Individual) (objective_function : ObjectiveFunction Individual)
    (verbose : Z) (timeout : option Q) (objective_kwargs : gmap string KwVal)
    (q : Q) :
  call_result (objective_function individual objective_kwargs)
  = Returns (Scalar (Num q)) →
  within_budget timeout (objective_function individual objective_kwargs) →
  objective_nan_wrapper individual objective_function verbose timeout
    objective_kwargs
  = mret (Sequence [Num q]).
Proof.
  intros Hret Hbudget. unfold objective_nan_wrapper.
  assert (match timeout with
          | Some t => func_timeout t (objective_function individual objective_kwargs)
          | None => objective_function individual objective_kwargs
          end = objective_function individual objective_kwargs) as ->.
  { destruct timeout as [t|]; [|done]. apply func_timeout_within; [done|].
    intros e He. by rewrite Hret in He. }
  by rewrite Hret.
Qed.

Lemma objective_nan_wrapper_wraps_number_witness :
  objective_nan_wrapper "A" Examples.sleeps_5s 0 (Some 10%Q) ∅
  = mret (Sequence [Num 1]).
Proof.
  apply (objective_nan_wrapper_wraps_number "A" Examples.sleeps_5s 0
           (Some 10%Q) ∅ 1%Q).
  - reflexivity.
  - simpl. unfold Qle. simpl. lia.
Defined.

Section staged_facts.

Context {Individual : Type}.
Variable np_str : Q → string.

(** Whatever the history, the final score the staged evaluator returns is
    the reduction of the vector it returns with it. *)
Lemma by_steps_loop_reduces_last_vector (ind : Individual) objective_list signs
    strategy thresholds verbose timeout kwargs :
  String.eqb strategy "mean" || String.eqb strategy "last" = true →
  ∀ steps locals sc fs,
    (∀ sc0 fs0, scores locals = Some sc0 → final_scores locals = Some fs0 →
                outcome (reduce_step strategy sc0) = Returns (Some fs0)) →
    returned (by_steps_loop np_str ind objective_list signs strategy thresholds
                verbose timeout kwargs steps locals) = Some (sc, fs) →
    outcome (reduce_step strategy sc) = Returns (Some fs).
Proof.
  intros Hstrategy.
  induction steps as [|step steps IH]; intros locals sc fs Hinv Hret.
  - cbn [by_steps_loop] in Hret. rewrite returned_bind in Hret.
    destruct (scores locals) as [sc0|] eqn:Hsc; [|done].
    cbn in Hret. destruct (final_scores locals) as [fs0|] eqn:Hfs; [|done].
    cbn in Hret. injection Hret as <- <-. by apply Hinv.
  - cbn [by_steps_loop] in Hret. rewrite returned_bind in Hret.
    destruct (returned (mapM _ objective_list)) as [values|]; [|done].
    cbn [mbind option_bind] in Hret. rewrite returned_bind in Hret.
    destruct (returned (np_concatenate np_str values)) as [sc1|]; [|done].
    cbn [mbind option_bind] in Hret. rewrite returned_bind in Hret.
    assert ((if String.eqb strategy "mean" then Some <$> np_mean sc1
             else if String.eqb strategy "last" then Some <$> np_last sc1
             else mret (final_scores locals)) = reduce_step strategy sc1) as Hred.
    { unfold reduce_step. destruct (String.eqb strategy "mean"); [done|].
      simpl in Hstrategy. by rewrite Hstrategy. }
    rewrite Hred in Hret.
    destruct (returned (reduce_step strategy sc1)) as [fs1|] eqn:Hfs1; [|done].
    apply returned_Some in Hfs1.
    cbn [mbind option_bind] in Hret. rewrite returned_bind in Hret.
    destruct (returned (match thresholds with Some _ => _ | None => _ end))
      as [[|]|]; [| |done]; cbn [mbind option_bind] in Hret.
    + rewrite returned_bind in Hret.
      destruct fs1 as [x|]; [|done]. cbn in Hret. by injection Hret as <- <-.
    + eapply IH; [|exact Hret]. simpl. by intros sc0 fs0 [= <-] [= <-].
Qed.

End staged_facts.

(** The final score the staged evaluator returns is decided by the one
    vector returned with it: two calls under the same strategy, "mean" or
    "last", that return the same vector return the same final score,
    whatever the individuals, objectives, numbers of steps and histories
    were; under "last" it is the last element of that vector. *)
Theorem eval_objective_list_by_steps_final_of_last_vector {Individual : Type}
    (np_str : Q → string) (final_score_strategy : string)
    (ind ind' : Individual)
    (objective_list objective_list' : list (ObjectiveFunction Individual))
    (n_steps n_steps' : Z) (weights weights' : list Q)
    (thresholds thresholds' : option (list (list Q))) (verbose verbose' : Z)
    (timeout timeout' : option Q) (kwargs kwargs' : gmap string KwVal)
    (sc : list Score) (fs fs' : Score) :
  final_score_strategy = "mean" ∨ final_score_strategy = "last" →
  returned (eval_objective_list_by_steps np_str ind objective_list n_steps
              weights final_score_strategy thresholds verbose timeout kwargs)
  = Some (sc, fs) →
  returned (eval_objective_list_by_steps np_str ind' objective_list' n_steps'
              weights' final_score_strategy thresholds' verbose' timeout'
              kwargs')
  = Some (sc, fs') →
  fs = fs' ∧ (final_score_strategy = "last" → last sc = Some fs).
Proof.
  intros Hstrategy Hret Hret'.
  assert (String.eqb final_score_strategy "mean"
          || String.eqb final_score_strategy "last" = true) as Hs
    by (by destruct Hstrategy as [-> | ->]).
  assert (∀ (i : Individual) objs n w ths v to kw f,
            returned (eval_objective_list_by_steps np_str i objs n w
                        final_score_strategy ths v to kw) = Some (sc, f) →
            outcome (reduce_step final_score_strategy sc) = Returns (Some f))
    as Hreduce.
  { intros i objs n w ths v to kw f Hf.
    apply (by_steps_loop_reduces_last_vector np_str i objs (np_sign <$> w)
             final_score_strategy ths v to kw Hs (seq 0 (Z.to_nat n))
             (mkLocals [] None None) sc f); [|exact Hf].
    intros sc0 fs0 Hsc. by simpl in Hsc. }
  pose proof (Hreduce _ _ _ _ _ _ _ _ _ Hret) as Hfs.
  pose proof (Hreduce _ _ _ _ _ _ _ _ _ Hret') as Hfs'.
  split; [congruence|].
  intros ->. unfold reduce_step, np_last in Hfs. simpl in Hfs.
  destruct (last sc) as [x|]; [|done]. simpl in Hfs. congruence.
Qed.

Lemma eval_objective_list_by_steps_final_of_last_vector_witness :
  Num (11 # 2) = Num (11 # 2) ∧ ("mean" = "last" → last [Num 1; Num 10] = Some (Num (11 # 2))).
Proof.
  apply (eval_objective_list_by_steps_final_of_last_vector Examples.np_str
           "mean" "A" "B" [Examples.stepped] [MoreExamples.one_ten] 2 1
           [1%Q; 1%Q] [] None None 0 3 None None ∅ ∅ [Num 1; Num 10]).
  - by left.
  - vm_compute. reflexivity.
  - vm_compute. reflexivity.
Defined.

(** ** More on process_scores *)

(** The matrices [process_scores] leaves as they are, are those with no row
    shorter than the width; a width of zero or less changes nothing. *)
Theorem process_scores_unchanged_iff (scores : list (list Score)) (n : Z) :
  process_scores scores n = scores
  ↔ Forall (λ row, (n ≤ Z.of_nat (length row))%Z) scores.
Proof.
  rewrite process_scores_map. split.
  - intros Heq. apply Forall_forall. intros row Hin.
    apply list_elem_of_lookup in Hin as [i Hi].
    assert ((repair_row n <$> scores) !! i = Some row) as Hrep
      by (by rewrite Heq).
    rewrite list_lookup_fmap, Hi in Hrep. simpl in Hrep.
    injection Hrep as Hrep. unfold repair_row in Hrep.
    destruct (Z.of_nat (length row) <? n)%Z eqn:Hlt; [|by apply Z.ltb_ge].
    apply Z.ltb_lt in Hlt.
    apply (f_equal length) in Hrep.
    destruct (contains "TIMEOUT" row); rewrite length_replicate in Hrep; lia.
  - intros Hall. rewrite <- (list_fmap_id scores) at 2.
    apply Forall_fmap_ext_1. eapply Forall_impl; [exact Hall|].
    intros row Hrow. unfold repair_row. simpl.
    by rewrite (proj2 (Z.ltb_ge _ _)).
Qed.

(** When no row is longer than the width, every row of the result has
    exactly the width. *)
Theorem process_scores_uniform_width (scores : list (list Score)) (n : Z) :
  Forall (λ row, (Z.of_nat (length row) ≤ n)%Z) scores →
  Forall (λ row, Z.of_nat (length row) = n) (process_scores scores n).
Proof.
  intros Hall. rewrite process_scores_map. apply Forall_fmap.
  eapply Forall_impl; [exact Hall|]. intros row Hrow. simpl in *.
  unfold repair_row.
  destruct (Z.of_nat (length row) <? n)%Z eqn:Hlt.
  - apply Z.ltb_lt in Hlt.
    destruct (contains "TIMEOUT" row); rewrite length_replicate; lia.
  - apply Z.ltb_ge in Hlt. lia.
Qed.

Lemma process_scores_uniform_width_witness :
  Forall (λ row, Z.of_nat (length row) = 3%Z)
    (process_scores [[Num 1; Num 2; Num 3]; [TIMEOUT]; []] 3).
Proof.
  apply (process_scores_uniform_width [[Num 1; Num 2; Num 3]; [TIMEOUT]; []] 3).
  repeat constructor; simpl; lia.
Defined.

(** ** More on objective_nan_wrapper *)

Section more_invoker_facts.

Context {Individual : Type}.
Implicit Types (individual : Individual).
Implicit Types (objective_function : ObjectiveFunction Individual).
Implicit Types (kwargs : gmap string KwVal).

Lemma effective_call_raises timeout (c : Call) e :
  call_result (effective_call timeout c) = Raises e →
  (timeout = None ∧ call_result c = Raises e)
  ∨ exc_class e = FunctionTimedOut
  ∨ ((∃ name, exc_class e = ExceptionSubclass name) ∧ call_result c = Raises e).
Proof.
  destruct timeout as [t|]; [|by left]. simpl. unfold func_timeout.
  destruct (Qle_bool (elapsed c) t || Qle_bool (elapsed c) 0).
  - destruct (call_result c) as [v|e'] eqn:Hres; [by rewrite Hres|].
    destruct (exc_class e') as [|name|name] eqn:Hclass; simpl; try done.
    rewrite Hres. intros [= <-]. right. right. eauto.
  - simpl. intros [= <-]. right. by left.
Qed.

Lemma effective_call_in_time timeout (c : Call) :
  within_budget timeout c →
  (∀ e, call_result c = Raises e → ∃ name, exc_class e = ExceptionSubclass name) →
  effective_call timeout c = c.
Proof.
  destruct timeout as [t|]; [|done]. simpl. apply func_timeout_within.
Qed.

(** The invoker as a case analysis on the call it sees. *)
Lemma objective_nan_wrapper_outcome individual objective_function verbose
    timeout kwargs :
  outcome (objective_nan_wrapper individual objective_function verbose timeout
             kwargs)
  = match call_result (effective_call timeout
                         (objective_function individual kwargs)) with
    | Returns value =>
        Returns (if isinstance_Iterable value then value else list_of value)
    | Raises e =>
        match exc_class e with
        | FunctionTimedOut => Returns (Sequence [TIMEOUT])
        | ExceptionSubclass _ => Returns (Sequence [INVALID])
        | BaseExceptionOnly _ => Raises e
        end
    end.
Proof.
  unfold objective_nan_wrapper.
  change (match timeout with
          | Some t => func_timeout t (objective_function individual kwargs)
          | None => objective_function individual kwargs
          end)
    with (effective_call timeout (objective_function individual kwargs)).
  destruct (call_result _) as [value|e]; [done|].
  destruct (exc_class e); [| |done].
  - by rewrite outcome_when_then by eauto.
  - rewrite outcome_when_then by eauto.
    by rewrite outcome_when_then by eauto.
Qed.

End more_invoker_facts.

(** An exception leaves [objective_nan_wrapper] only when no timeout is set,
    and it is then one the objective function itself raised and that is no
    instance of [Exception]: the invoker raises nothing of its own, and
    neither func_timeout's signal nor an [Exception] gets past it. *)
Theorem objective_nan_wrapper_raises_only_BaseException {Individual : Type}
    (individual : Individual) (objective_function : ObjectiveFunction Individual)
    (verbose : Z) (timeout : option Q) (objective_kwargs : gmap string KwVal)
    (e : PyExc) :
  outcome (objective_nan_wrapper individual objective_function verbose timeout
             objective_kwargs) = Raises e →
  timeout = None
  ∧ (∃ name, exc_class e = BaseExceptionOnly name)
  ∧ call_result (objective_function individual objective_kwargs) = Raises e.
Proof.
  rewrite objective_nan_wrapper_outcome.
  destruct (call_result (effective_call _ _)) as [value|e'] eqn:Hres; [done|].
  destruct (exc_class e') as [|name|name] eqn:Hclass; try done.
  intros [= <-].
  destruct (effective_call_raises _ _ _ Hres)
    as [[-> Hcall]|[Hfto|[[name' Hexc] _]]]; [eauto|congruence..].
Qed.

Lemma objective_nan_wrapper_raises_only_BaseException_witness :
  @None Q = None
  ∧ (∃ name, exc_class Examples.KeyboardInterrupt = BaseExceptionOnly name)
  ∧ call_result (Examples.interrupted "A" ∅) = Raises Examples.KeyboardInterrupt.
Proof.
  apply (objective_nan_wrapper_raises_only_BaseException "A"
           Examples.interrupted 5 None ∅ Examples.KeyboardInterrupt).
  reflexivity.
Defined.

(** Whatever [objective_nan_wrapper] returns is Iterable: a sequence, or a
    str the objective function returned bare. *)
Theorem objective_nan_wrapper_returns_iterable {Individual : Type}
    (individual : Individual) (objective_function : ObjectiveFunction Individual)
    (verbose : Z) (timeout : option Q) (objective_kwargs : gmap string KwVal)
    (value : PyVal) :
  returned (objective_nan_wrapper individual objective_function verbose timeout
              objective_kwargs) = Some value →
  isinstance_Iterable value = true.
Proof.
  rewrite returned_Some, objective_nan_wrapper_outcome.
  destruct (call_result _) as [v|e].
  - intros [= <-]. destruct (isinstance_Iterable v) eqn:Hv; [done|].
    by destruct v.
  - destruct (exc_class e); by intros [= <-].
Qed.

Lemma objective_nan_wrapper_returns_iterable_witness :
  isinstance_Iterable (Sequence [Num 1]) = true.
Proof.
  apply (objective_nan_wrapper_returns_iterable "A" Examples.sleeps_5s 0 None ∅).
  reflexivity.
Defined.

(** The verbosity level decides what is printed and nothing else: the row
    returned, or the exception raised, is the same at every level. *)
Theorem objective_nan_wrapper_verbose_outcome {Individual : Type}
    (individual : Individual) (objective_function : ObjectiveFunction Individual)
    (verbose verbose' : Z) (timeout : option Q)
    (objective_kwargs : gmap string KwVal) :
  outcome (objective_nan_wrapper individual objective_function verbose timeout
             objective_kwargs)
  = outcome (objective_nan_wrapper individual objective_function verbose'
               timeout objective_kwargs).
Proof. by rewrite !objective_nan_wrapper_outcome. Qed.

(** Below verbosity 4 [objective_nan_wrapper] prints nothing, whether the
    call returns, fails or times out. *)
Theorem objective_nan_wrapper_silent {Individual : Type}
    (individual : Individual) (objective_function : ObjectiveFunction Individual)
    (verbose : Z) (timeout : option Q) (objective_kwargs : gmap string KwVal) :
  (verbose < 4)%Z →
  stdout (objective_nan_wrapper individual objective_function verbose timeout
            objective_kwargs) = [].
Proof.
  intros Hquiet. unfold objective_nan_wrapper.
  destruct (call_result _) as [value|e]; [done|].
  assert ((4 <=? verbose)%Z = false) as H4 by lia.
  assert ((verbose =? 4)%Z = false) as He4 by lia.
  assert ((5 <=? verbose)%Z = false) as H5 by lia.
  rewrite H4, He4, H5. by destruct (exc_class e).
Qed.

Lemma objective_nan_wrapper_silent_witness :
  stdout (objective_nan_wrapper "A" Examples.failing 3 None ∅) = [].
Proof.
  apply (objective_nan_wrapper_silent "A" Examples.failing 3 None ∅). lia.
Defined.

(** An objective function that lets func_timeout's signal out (it ran a
    timeout of its own) is reported as ["TIMEOUT"] when the invoker was
    given no timeout: the first handler catches the signal wherever it
    comes from. *)
Theorem objective_nan_wrapper_nested_timeout {Individual : Type}
    (individual : Individual) (objective_function : ObjectiveFunction Individual)
    (verbose : Z) (objective_kwargs : gmap string KwVal) (e : PyExc) :
  call_result (objective_function individual objective_kwargs) = Raises e →
  exc_class e = FunctionTimedOut →
  outcome (objective_nan_wrapper individual objective_function verbose None
             objective_kwargs)
  = Returns (Sequence [TIMEOUT]).
Proof.
  intros Hraise Hclass. rewrite objective_nan_wrapper_outcome. simpl.
  by rewrite Hraise, Hclass.
Qed.

Lemma objective_nan_wrapper_nested_timeout_witness :
  outcome (objective_nan_wrapper "A" MoreExamples.nested_timeout 0 None ∅)
  = Returns (Sequence [TIMEOUT]).
Proof.
  apply (objective_nan_wrapper_nested_timeout "A" MoreExamples.nested_timeout
           0 ∅ (mkExc FunctionTimedOut "Function timed out" "")).
  - reflexivity.
  - reflexivity.
Defined.

(** ** eval_objective_list *)

Section numpy_facts.

Variable np_str : Q → string.

Lemma length_np_asarray xs : length (np_asarray np_str xs) = length xs.
Proof.
  unfold np_asarray.
  destruct (existsb is_none xs); [done|].
  destruct (existsb is_text xs); [|done]. by rewrite length_fmap.
Qed.

Lemma np_asarray_keeps_str xs s : Str s ∈ xs → Str s ∈ np_asarray np_str xs.
Proof.
  intros Hin. unfold np_asarray.
  destruct (existsb is_none xs); [done|].
  destruct (existsb is_text xs); [|done].
  by apply (list_elem_of_fmap_2 (to_text np_str) xs (Str s)).
Qed.

Lemma np_asarray_replicate_str k s :
  np_asarray np_str (replicate k (Str s)) = replicate k (Str s).
Proof.
  unfold np_asarray.
  assert (existsb is_none (replicate k (Str s)) = false) as ->.
  { induction k as [|k IH]; [done|]. simpl. exact IH. }
  destruct (existsb is_text (replicate k (Str s))); [|done].
  by rewrite fmap_replicate.
Qed.

Lemma length_concat_sum {X} (ls : list (list X)) :
  length (concat ls) = sum_list (length <$> ls).
Proof.
  induction ls as [|l ls IH]; [done|].
  simpl. by rewrite length_app, IH.
Qed.

Lemma concat_replicate_singleton {X} k (x : X) :
  concat (replicate k [x]) = replicate k x.
Proof. induction k as [|k IH]; [done|]. simpl. by rewrite IH. Qed.

Lemma no_zero_dim_sequences (values : list PyVal) :
  existsb is_zero_dim values = false →
  values = Sequence <$> (elements <$> values).
Proof.
  induction values as [|v values IH]; [done|]. simpl.
  intros Hno. apply orb_false_iff in Hno as [Hv Hrest].
  destruct v as [x|xs]; [done|]. csimpl. by rewrite <- IH.
Qed.

Lemma sequences_no_zero_dim (pieces : list (list Score)) :
  existsb is_zero_dim (Sequence <$> pieces) = false.
Proof. induction pieces as [|xs pieces IH]; [done|]. exact IH. Qed.

Lemma elements_sequences (pieces : list (list Score)) :
  (np_asarray np_str ∘ elements) <$> (Sequence <$> pieces)
  = np_asarray np_str <$> pieces.
Proof. by rewrite <- list_fmap_compose. Qed.

(** [np.concatenate] returns exactly on a non-empty list of sequences. *)
Lemma np_concatenate_returned values row :
  returned (np_concatenate np_str values) = Some row
  ↔ values ≠ [] ∧ ∃ pieces,
      values = Sequence <$> pieces
      ∧ row = np_asarray np_str (concat (np_asarray np_str <$> pieces)).
Proof.
  split.
  - destruct values as [|v values]; [done|].
    unfold np_concatenate.
    destruct (existsb is_zero_dim (v :: values)) eqn:Hdim; [done|].
    rewrite returned_ret. intros [= <-]. split; [done|].
    exists (elements <$> v :: values). split.
    + by apply no_zero_dim_sequences.
    + by rewrite <- list_fmap_compose.
  - intros [Hne (pieces & -> & ->)].
    destruct pieces as [|xs pieces]; [done|].
    unfold np_concatenate.
    rewrite (sequences_no_zero_dim (xs :: pieces)).
    by rewrite (elements_sequences (xs :: pieces)).
Qed.

End numpy_facts.

Lemma mapM_all_return {X Y} (f : X → M Y) (l : list X) (ys : list Y) :
  Forall2 (λ x y, outcome (f x) = Returns y) l ys →
  outcome (mapM f l) = Returns ys.
Proof.
  intros Hall. apply returned_Some. rewrite returned_mapM.
  apply mapM_Some. eapply Forall2_impl; [exact Hall|].
  intros x y. apply returned_Some.
Qed.

Section evaluator_facts.

Context {Individual : Type}.
Variable np_str : Q → string.
Implicit Types (ind : Individual) (obj : ObjectiveFunction Individual).
Implicit Types (objs : list (ObjectiveFunction Individual)).
Implicit Types (kwargs : gmap string KwVal).

(** The evaluator returns exactly when the list is not empty and every
    invocation returns a sequence; the row is then made of the sequences in
    the order of the objectives. *)
Lemma eval_objective_list_pieces ind objs verbose timeout kwargs row :
  returned (eval_objective_list np_str ind objs verbose timeout kwargs)
  = Some row
  ↔ objs ≠ [] ∧ ∃ pieces,
      Forall2 (λ obj xs, returned (invoke ind obj verbose timeout kwargs)
                         = Some (Sequence xs)) objs pieces
      ∧ row = np_asarray np_str (concat (np_asarray np_str <$> pieces)).
Proof.
  unfold eval_objective_list. rewrite returned_bind, returned_mapM. split.
  - destruct (mapM _ objs) as [values|] eqn:Hvalues; [|done]. simpl.
    apply mapM_Some in Hvalues.
    intros [Hne (pieces & -> & ->)]%np_concatenate_returned.
    split.
    + intros ->. apply Forall2_nil_inv_l in Hvalues.
      by apply fmap_nil_inv in Hvalues as ->.
    + exists pieces. split; [|done]. by apply Forall2_fmap_r in Hvalues.
  - intros [Hne (pieces & Hall & ->)].
    assert (mapM (λ obj, returned (invoke ind obj verbose timeout kwargs)) objs
            = Some (Sequence <$> pieces)) as ->.
    { apply mapM_Some. by apply Forall2_fmap_r. }
    simpl. apply np_concatenate_returned. split; [|eauto].
    destruct objs; [done|]. by inversion Hall.
Qed.

Lemma invoke_absorbed ind obj verbose timeout kwargs :
  positional_clash ["individual"; "objective_function"] kwargs = false →
  absorbed timeout (obj ind kwargs) →
  ∃ xs, returned (invoke ind obj verbose timeout kwargs) = Some (Sequence xs).
Proof.
  intros Hclash Habs. unfold invoke. rewrite Hclash.
  unfold absorbed in Habs.
  setoid_rewrite returned_Some. setoid_rewrite objective_nan_wrapper_outcome.
  destruct (call_result _) as [[x|xs]|e].
  - destruct x; try done; simpl; eauto.
  - simpl. eauto.
  - destruct (exc_class e); [eauto|eauto|done].
Qed.

Lemma invoke_returned_no_clash ind obj verbose timeout kwargs v :
  returned (invoke ind obj verbose timeout kwargs) = Some v →
  positional_clash ["individual"; "objective_function"] kwargs = false.
Proof.
  unfold invoke. by destruct (positional_clash _ kwargs).
Qed.

End evaluator_facts.

(** A failure of one objective never blocks the evaluation of an
    individual: when the list is not empty, no key of the keyword arguments
    names a positional parameter, and every objective either returns (a
    sequence or a bare value that is no str), times out or raises an
    instance of [Exception], [eval_objective_list] returns a row. *)
Theorem eval_objective_list_absorbs_failures {Individual : Type}
    (np_str : Q → string) (ind : Individual)
    (objective_list : list (ObjectiveFunction Individual)) (verbose : Z)
    (timeout : option Q) (objective_kwargs : gmap string KwVal) :
  objective_list ≠ [] →
  positional_clash ["individual"; "objective_function"] objective_kwargs = false →
  Forall (λ obj, absorbed timeout (obj ind objective_kwargs)) objective_list →
  ∃ row, outcome (eval_objective_list np_str ind objective_list verbose timeout
                    objective_kwargs) = Returns row.
Proof.
  intros Hne Hclash Habs.
  assert (∃ pieces,
            Forall2 (λ obj xs, returned (invoke ind obj verbose timeout
                                           objective_kwargs)
                               = Some (Sequence xs)) objective_list pieces)
    as [pieces Hpieces].
  { clear Hne. induction Habs as [|obj objs Hobj _ [pieces IH]].
    - exists []. constructor.
    - destruct (invoke_absorbed ind obj verbose timeout objective_kwargs
                  Hclash Hobj) as [xs Hxs].
      exists (xs :: pieces). by constructor. }
  eexists. apply returned_Some. apply eval_objective_list_pieces.
  split; [done|]. eauto.
Qed.

Lemma eval_objective_list_absorbs_failures_witness :
  ∃ row, outcome (eval_objective_list Examples.np_str "B"
                    [Examples.obj1; Examples.obj2; Examples.sleeps_5s] 0
                    (Some 1%Q) ∅) = Returns row.
Proof.
  apply (eval_objective_list_absorbs_failures Examples.np_str "B"
           [Examples.obj1; Examples.obj2; Examples.sleeps_5s] 0 (Some 1%Q) ∅).
  - discriminate.
  - reflexivity.
  - repeat constructor.
Defined.

(** The row of an individual is as long as the sequences the invocations
    return are together: the sum of the arities of the objectives, one for
    an objective that failed or timed out. *)
Theorem eval_objective_list_row_length {Individual : Type}
    (np_str : Q → string) (ind : Individual)
    (objective_list : list (ObjectiveFunction Individual)) (verbose : Z)
    (timeout : option Q) (objective_kwargs : gmap string KwVal)
    (row : list Score) :
  returned (eval_objective_list np_str ind objective_list verbose timeout
              objective_kwargs) = Some row →
  ∃ pieces,
    Forall2 (λ obj xs,
               returned (objective_nan_wrapper ind obj verbose timeout
                           objective_kwargs) = Some (Sequence xs))
      objective_list pieces
    ∧ length row = sum_list (length <$> pieces).
Proof.
  intros [Hne (pieces & Hall & ->)]%eval_objective_list_pieces.
  exists pieces. split.
  - eapply Forall2_impl; [exact Hall|]. intros obj xs Hxs.
    pose proof (invoke_returned_no_clash _ _ _ _ _ _ Hxs) as Hclash.
    unfold invoke in Hxs. by rewrite Hclash in Hxs.
  - rewrite length_np_asarray, length_concat_sum, <- list_fmap_compose.
    f_equal. apply list_fmap_ext. intros _ xs _. simpl.
    apply length_np_asarray.
Qed.

Lemma eval_objective_list_row_length_witness :
  ∃ pieces,
    Forall2 (λ obj xs,
               returned (objective_nan_wrapper "B" obj 0 None ∅)
               = Some (Sequence xs))
      [Examples.obj1; Examples.obj2] pieces
    ∧ length [INVALID; Str "2/1"; Str "3/1"] = sum_list (length <$> pieces).
Proof.
  apply (eval_objective_list_row_length Examples.np_str "B"
           [Examples.obj1; Examples.obj2] 0 None ∅).
  vm_compute. reflexivity.
Defined.

Section sentinel_rows.

Context {Individual : Type}.
Variable np_str : Q → string.
Implicit Types (ind : Individual) (obj : ObjectiveFunction Individual).
Implicit Types (objs : list (ObjectiveFunction Individual)).
Implicit Types (kwargs : gmap string KwVal).

Lemma eval_objective_list_one_sentinel ind objs verbose timeout kwargs s :
  objs ≠ [] →
  Forall (λ obj, returned (invoke ind obj verbose timeout kwargs)
                 = Some (Sequence [Str s])) objs →
  outcome (eval_objective_list np_str ind objs verbose timeout kwargs)
  = Returns (replicate (length objs) (Str s)).
Proof.
  intros Hne Hall. apply returned_Some, eval_objective_list_pieces.
  split; [done|]. exists (replicate (length objs) [Str s]). split.
  - by apply Forall2_replicate_r.
  - rewrite fmap_replicate.
    change [Str s] with (replicate 1 (Str s)).
    rewrite (np_asarray_replicate_str np_str 1 s). simpl.
    by rewrite concat_replicate_singleton, np_asarray_replicate_str.
Qed.

Lemma invoke_fails_in_time ind obj verbose timeout kwargs :
  positional_clash ["individual"; "objective_function"] kwargs = false →
  fails_in_time timeout (obj ind kwargs) →
  returned (invoke ind obj verbose timeout kwargs) = Some (Sequence [INVALID]).
Proof.
  intros Hclash (e & name & Hraise & Hclass & Hbudget).
  unfold invoke. rewrite Hclash.
  apply returned_Some. rewrite objective_nan_wrapper_outcome.
  rewrite effective_call_in_time; [by rewrite Hraise, Hclass|done|].
  intros e' He'. rewrite Hraise in He'. injection He' as <-. eauto.
Qed.

Lemma invoke_times_out ind obj verbose t kwargs :
  positional_clash ["individual"; "objective_function"] kwargs = false →
  (0 < t)%Q →
  (t < elapsed (obj ind kwargs))%Q →
  returned (invoke ind obj verbose (Some t) kwargs) = Some (Sequence [TIMEOUT]).
Proof.
  intros Hclash Hpos Hlate. unfold invoke. rewrite Hclash.
  apply returned_Some. rewrite objective_nan_wrapper_outcome. simpl.
  by rewrite (func_timeout_expired _ _ Hpos Hlate).
Qed.

(** Row [i] of the matrix the dispatcher returns is the row of individual
    [i], repaired when a width is given. *)
Lemma parallel_eval_row finish_rank (inds : list Individual) objs n_jobs
    verbose timeout n_expected_columns kwargs m i ind :
  returned (parallel_eval_objective_list np_str finish_rank inds objs n_jobs
              verbose timeout n_expected_columns kwargs) = Some m →
  inds !! i = Some ind →
  ∃ raw,
    returned (eval_objective_list np_str ind objs verbose timeout kwargs)
    = Some raw
    ∧ m !! i = Some (match n_expected_columns with
                     | Some n => repair_row n raw
                     | None => raw
                     end).
Proof.
  rewrite parallel_eval_returned. intros Hm Hind.
  pose proof (sequential_eval_rows np_str _ _ _ _ _ _ _ Hm i) as Hrow.
  pose proof (sequential_eval_length np_str _ _ _ _ _ _ _ Hm) as Hlen.
  rewrite Hind in Hrow. simpl in Hrow.
  assert (is_Some (m !! i)) as [r Hr].
  { apply lookup_lt_is_Some. rewrite Hlen. by eapply lookup_lt_Some. }
  rewrite Hr in Hrow.
  unfold eval_objective_list_task in Hrow.
  destruct (positional_clash ["ind"] kwargs); [done|].
  destruct (returned (eval_objective_list _ _ _ _ _ _)) as [raw|]; [|done].
  exists raw. split; [done|]. rewrite Hr. simpl in Hrow.
  by destruct n_expected_columns.
Qed.

End sentinel_rows.

(** An individual on which every objective raises an instance of
    [Exception] (in time) gets a row of "INVALID", one for each
    objective. *)
Theorem eval_objective_list_all_fail {Individual : Type}
    (np_str : Q → string) (ind : Individual)
    (objective_list : list (ObjectiveFunction Individual)) (verbose : Z)
    (timeout : option Q) (objective_kwargs : gmap string KwVal) :
  objective_list ≠ [] →
  positional_clash ["individual"; "objective_function"] objective_kwargs = false →
  Forall (λ obj, fails_in_time timeout (obj ind objective_kwargs))
    objective_list →
  outcome (eval_objective_list np_str ind objective_list verbose timeout
             objective_kwargs)
  = Returns (replicate (length objective_list) INVALID).
Proof.
  intros Hne Hclash Hall. apply eval_objective_list_one_sentinel; [done|].
  eapply Forall_impl; [exact Hall|]. intros obj Hobj.
  by apply invoke_fails_in_time.
Qed.

Lemma eval_objective_list_all_fail_witness :
  outcome (eval_objective_list Examples.np_str "B"
             [Examples.obj1; Examples.failing] 0 None ∅)
  = Returns (replicate (length [Examples.obj1; Examples.failing]) INVALID).
Proof.
  apply (eval_objective_list_all_fail Examples.np_str "B"
           [Examples.obj1; Examples.failing] 0 None ∅).
  - discriminate.
  - reflexivity.
  - repeat constructor;
      exists (ValueError "bad pipeline"), "ValueError"; by repeat split.
Defined.

(** An individual on which every objective runs past a positive timeout
    gets a row of "TIMEOUT", one for each objective. *)
Theorem eval_objective_list_all_time_out {Individual : Type}
    (np_str : Q → string) (ind : Individual)
    (objective_list : list (ObjectiveFunction Individual)) (verbose : Z)
    (t : Q) (objective_kwargs : gmap string KwVal) :
  objective_list ≠ [] →
  positional_clash ["individual"; "objective_function"] objective_kwargs = false →
  (0 < t)%Q →
  Forall (λ obj, (t < elapsed (obj ind objective_kwargs))%Q) objective_list →
  outcome (eval_objective_list np_str ind objective_list verbose (Some t)
             objective_kwargs)
  = Returns (replicate (length objective_list) TIMEOUT).
Proof.
  intros Hne Hclash Hpos Hall. apply eval_objective_list_one_sentinel; [done|].
  eapply Forall_impl; [exact Hall|]. intros obj Hobj.
  by apply invoke_times_out.
Qed.

Lemma eval_objective_list_all_time_out_witness :
  outcome (eval_objective_list Examples.np_str "A"
             [Examples.sleeps_5s; Examples.sleeps_5s] 0 (Some 1%Q) ∅)
  = Returns (replicate (length [Examples.sleeps_5s; Examples.sleeps_5s]) TIMEOUT).
Proof.
  apply (eval_objective_list_all_time_out Examples.np_str "A"
           [Examples.sleeps_5s; Examples.sleeps_5s] 0 1%Q ∅).
  - discriminate.
  - reflexivity.
  - by unfold Qlt.
  - repeat constructor.
Defined.

(** ** More on parallel_eval_objective_list *)

(** With a width [n] given, an individual on which each of the [k] objectives
    raises an instance of [Exception], [k] at most [n], has the row of [n]
    copies of "INVALID" in the matrix. *)
Theorem parallel_eval_objective_list_failed_individual {Individual : Type}
    (np_str : Q → string) (finish_rank : Z → nat → nat)
    (individual_list : list Individual)
    (objective_list : list (ObjectiveFunction Individual))
    (n_jobs verbose : Z) (timeout : option Q) (n : Z)
    (objective_kwargs : gmap string KwVal)
    (m : list (list Score)) (i : nat) (ind : Individual) :
  returned (parallel_eval_objective_list np_str finish_rank individual_list
              objective_list n_jobs verbose timeout (Some n) objective_kwargs)
  = Some m →
  individual_list !! i = Some ind →
  objective_list ≠ [] →
  Forall (λ obj, fails_in_time timeout (obj ind objective_kwargs))
    objective_list →
  (Z.of_nat (length objective_list) ≤ n)%Z →
  m !! i = Some (replicate (Z.to_nat n) INVALID).
Proof.
  intros Hm Hind Hne Hall Hk.
  destruct (parallel_eval_row np_str _ _ _ _ _ _ _ _ _ _ _ Hm Hind)
    as (raw & Hraw & ->).
  assert (positional_clash ["individual"; "objective_function"]
            objective_kwargs = false) as Hclash.
  { apply eval_objective_list_pieces in Hraw as [_ (pieces & Hpieces & _)].
    destruct Hpieces as [|obj xs objs pieces Hobj _]; [done|].
    by eapply invoke_returned_no_clash. }
  pose proof (eval_objective_list_one_sentinel np_str ind objective_list
                verbose timeout objective_kwargs "INVALID" Hne) as Hrow.
  apply returned_Some in Hrow.
  2:{ eapply Forall_impl; [exact Hall|]. intros obj Hobj.
      by apply invoke_fails_in_time. }
  rewrite Hrow in Hraw. injection Hraw as <-. f_equal.
  unfold repair_row. rewrite length_replicate.
  destruct (Z.of_nat (length objective_list) <? n)%Z eqn:Hlt.
  - assert (contains "TIMEOUT" (replicate (length objective_list) (Str "INVALID"))
            = false) as ->; [|done].
    destruct (contains _ _) eqn:Hc; [|done].
    apply contains_spec, elem_of_replicate_inv in Hc. discriminate.
  - apply Z.ltb_ge in Hlt. f_equal. lia.
Qed.

Lemma parallel_eval_objective_list_failed_individual_witness :
  [[Num 1; Num 1; Num 1]; [INVALID; INVALID; INVALID]] !! 1
  = Some (replicate (Z.to_nat 3) INVALID).
Proof.
  apply (parallel_eval_objective_list_failed_individual Examples.np_str
           Examples.reversed ["A"; "B"]
           [Examples.obj1; Examples.obj1; Examples.obj1] 4 0 None 3 ∅ [[Num 1; Num 1; Num 1]; [INVALID; INVALID; INVALID]] 1 "B").
  - vm_compute. reflexivity.
  - reflexivity.
  - discriminate.
  - repeat constructor;
      exists (ValueError "bad pipeline"), "ValueError"; by repeat split.
  - simpl. lia.
Defined.

Lemma elem_of_concat_2 {X} (x : X) (xs : list X) (ls : list (list X)) :
  xs ∈ ls → x ∈ xs → x ∈ concat ls.
Proof.
  intros Hxs Hx. induction ls as [|ys ls IH].
  - by apply elem_of_nil in Hxs.
  - simpl. apply elem_of_app.
    apply elem_of_cons in Hxs as [<-|Hxs]; [by left|right; by apply IH].
Qed.

(** A positive timeout that any objective overruns on individual [i] shows
    in the matrix: row [i] holds "TIMEOUT", whether or not the row was
    repaired. *)
Theorem parallel_eval_objective_list_timeout_marks_row {Individual : Type}
    (np_str : Q → string) (finish_rank : Z → nat → nat)
    (individual_list : list Individual)
    (objective_list : list (ObjectiveFunction Individual))
    (n_jobs verbose : Z) (t : Q) (n_expected_columns : option Z)
    (objective_kwargs : gmap string KwVal)
    (m : list (list Score)) (i : nat) (ind : Individual)
    (obj : ObjectiveFunction Individual) :
  returned (parallel_eval_objective_list np_str finish_rank individual_list
              objective_list n_jobs verbose (Some t) n_expected_columns
              objective_kwargs) = Some m →
  individual_list !! i = Some ind →
  obj ∈ objective_list →
  (0 < t)%Q →
  (t < elapsed (obj ind objective_kwargs))%Q →
  ∃ r, m !! i = Some r ∧ TIMEOUT ∈ r.
Proof.
  intros Hm Hind Hobj Hpos Hlate.
  destruct (parallel_eval_row np_str _ _ _ _ _ _ _ _ _ _ _ Hm Hind)
    as (raw & Hraw & Hrow).
  assert (TIMEOUT ∈ raw) as Hin.
  { apply eval_objective_list_pieces in Hraw as [_ (pieces & Hpieces & ->)].
    apply list_elem_of_lookup in Hobj as [j Hj].
    destruct (Forall2_lookup_l _ _ _ _ _ Hpieces Hj) as (xs & Hxs & Hinv).
    pose proof (invoke_returned_no_clash _ _ _ _ _ _ Hinv) as Hclash.
    rewrite (invoke_times_out ind obj verbose t objective_kwargs Hclash Hpos
               Hlate)
      in Hinv.
    injection Hinv as <-.
    apply np_asarray_keeps_str.
    apply (elem_of_concat_2 _ (np_asarray np_str [TIMEOUT])).
    - apply list_elem_of_fmap_2. by eapply list_elem_of_lookup_2.
    - apply np_asarray_keeps_str. by apply list_elem_of_here. }
  eexists. split; [exact Hrow|].
  destruct n_expected_columns as [n|]; [|done].
  unfold repair_row.
  destruct (Z.of_nat (length raw) <? n)%Z eqn:Hlt; [|done].
  apply Z.ltb_lt in Hlt.
  rewrite (proj2 (contains_spec "TIMEOUT" raw) Hin).
  apply elem_of_replicate. split; [done|]. lia.
Qed.

Lemma parallel_eval_objective_list_timeout_marks_row_witness :
  ∃ r, [[TIMEOUT; TIMEOUT; TIMEOUT]] !! 0 = Some r ∧ TIMEOUT ∈ r.
Proof.
  apply (parallel_eval_objective_list_timeout_marks_row Examples.np_str
           Examples.in_order ["A"] [Examples.obj1; Examples.sleeps_5s] 1 0 1%Q
           (Some 3%Z) ∅ [[TIMEOUT; TIMEOUT; TIMEOUT]] 0 "A" Examples.sleeps_5s).
  - vm_compute. reflexivity.
  - reflexivity.
  - apply list_elem_of_further, list_elem_of_here.
  - by unfold Qlt.
  - simpl. unfold Qlt. simpl. lia.
Defined.

(** The matrix has one row for each individual. *)
Theorem parallel_eval_objective_list_one_row_each {Individual : Type}
    (np_str : Q → string) (finish_rank : Z → nat → nat)
    (individual_list : list Individual)
    (objective_list : list (ObjectiveFunction Individual))
    (n_jobs verbose : Z) (timeout : option Q) (n_expected_columns : option Z)
    (objective_kwargs : gmap string KwVal) (m : list (list Score)) :
  returned (parallel_eval_objective_list np_str finish_rank individual_list
              objective_list n_jobs verbose timeout n_expected_columns
              objective_kwargs) = Some m →
  length m = length individual_list.
Proof.
  rewrite parallel_eval_returned. apply sequential_eval_length.
Qed.

Lemma parallel_eval_objective_list_one_row_each_witness :
  length [[Num 1; Num 2; Num 3]; [INVALID; Str "2/1"; Str "3/1"];
          [Num 1; Num 2; Num 3]]
  = length ["A"; "B"; "C"].
Proof.
  apply (parallel_eval_objective_list_one_row_each Examples.np_str
           Examples.reversed ["A"; "B"; "C"] [Examples.obj1; Examples.obj2] 4 0
           None (Some 3%Z) ∅).
  vm_compute. reflexivity.
Defined.

(** The dispatcher raises exactly when the evaluation of some individual
    raises: an exception raised for one individual (one that is no instance
    of [Exception], or a clash of arguments) ends the whole run, and nothing
    else does. *)
Theorem parallel_eval_objective_list_raises_iff {Individual : Type}
    (np_str : Q → string) (finish_rank : Z → nat → nat)
    (individual_list : list Individual)
    (objective_list : list (ObjectiveFunction Individual))
    (n_jobs verbose : Z) (timeout : option Q) (n_expected_columns : option Z)
    (objective_kwargs : gmap string KwVal) :
  returned (parallel_eval_objective_list np_str finish_rank individual_list
              objective_list n_jobs verbose timeout n_expected_columns
              objective_kwargs) = None
  ↔ Exists (λ ind, returned (eval_objective_list_task np_str ind objective_list
                               verbose timeout objective_kwargs) = None)
      individual_list.
Proof.
  unfold parallel_eval_objective_list.
  rewrite returned_bind, dask_compute_returned, mapM_fmap_option.
  rewrite <- mapM_None.
  destruct (mapM _ individual_list) as [rows|]; [|done]. simpl.
  by destruct n_expected_columns.
Qed.

(** Empty inputs: an empty population gives the empty matrix and prints
    nothing; an empty list of objectives, with at least one individual,
    makes the dispatcher raise (np.concatenate has nothing to join). *)
Theorem parallel_eval_objective_list_empty_inputs {Individual : Type}
    (np_str : Q → string) (finish_rank : Z → nat → nat)
    (individual_list : list Individual)
    (objective_list : list (ObjectiveFunction Individual))
    (n_jobs verbose : Z) (timeout : option Q) (n_expected_columns : option Z)
    (objective_kwargs : gmap string KwVal) :
  parallel_eval_objective_list np_str finish_rank [] objective_list n_jobs
    verbose timeout n_expected_columns objective_kwargs = mret []
  ∧ (individual_list ≠ [] →
     returned (parallel_eval_objective_list np_str finish_rank individual_list
                 [] n_jobs verbose timeout n_expected_columns objective_kwargs)
     = None).
Proof.
  split.
  - by destruct n_expected_columns.
  - intros Hne. unfold parallel_eval_objective_list.
    rewrite returned_bind, dask_compute_returned, mapM_fmap_option.
    destruct individual_list as [|ind inds]; [done|].
    assert (returned (eval_objective_list_task np_str ind [] verbose timeout
                        objective_kwargs) = None) as Hnone.
    { unfold eval_objective_list_task. by destruct (positional_clash _ _). }
    assert (mapM (λ ind, returned (eval_objective_list_task np_str ind []
                                     verbose timeout objective_kwargs))
              (ind :: inds) = None) as ->; [|done].
    apply mapM_None. by apply Exists_cons_hd.
Qed.

(** ** More on eval_objective_list_by_steps *)

Section more_staged_facts.

Context {Individual : Type}.
Variable np_str : Q → string.
Implicit Types (ind : Individual).
Implicit Types (objs : list (ObjectiveFunction Individual)).
Implicit Types (kwargs : gmap string KwVal).

Lemma returned_eval_step ind objs verbose step timeout kwargs :
  returned (eval_step np_str ind objs verbose step timeout kwargs)
  = returned (mapM (λ obj, invoke_step ind obj verbose step timeout kwargs) objs)
    ≫= λ values, returned (np_concatenate np_str values).
Proof. unfold eval_step. by rewrite returned_bind. Qed.

(** With a strategy that assigns nothing, [final_scores] stays unassigned
    and no path of the loop returns. *)
Lemma by_steps_loop_unassigned ind objs signs strategy thresholds verbose
    timeout kwargs :
  String.eqb strategy "mean" = false →
  String.eqb strategy "last" = false →
  ∀ steps locals,
    final_scores locals = None →
    returned (by_steps_loop np_str ind objs signs strategy thresholds verbose
                timeout kwargs steps locals) = None.
Proof.
  intros Hmean Hlast.
  induction steps as [|step steps IH]; intros locals Hfs.
  - cbn [by_steps_loop]. rewrite returned_bind.
    destruct (scores locals); [|done]. simpl.
    rewrite returned_bind. by rewrite Hfs.
  - cbn [by_steps_loop]. rewrite returned_bind.
    destruct (returned (mapM _ objs)) as [values|]; [|done].
    cbn [mbind option_bind]. rewrite returned_bind.
    destruct (returned (np_concatenate np_str values)) as [sc|]; [|done].
    cbn [mbind option_bind]. rewrite Hmean, Hlast, Hfs.
    rewrite returned_bind, returned_ret. cbn [mbind option_bind].
    rewrite returned_bind.
    destruct thresholds as [ths|].
    + rewrite returned_bind.
      destruct (returned (getitem ths step)); [|done].
      cbn [mbind option_bind]. by rewrite returned_bind.
    + rewrite returned_ret. cbn [mbind option_bind]. by apply IH.
Qed.

(** Without thresholds the vector returned is the one of the last step of
    the list, or the one the loop started with. *)
Lemma by_steps_loop_last_step ind objs signs strategy verbose timeout kwargs :
  ∀ steps locals sc fs,
    returned (by_steps_loop np_str ind objs signs strategy None verbose
                timeout kwargs steps locals) = Some (sc, fs) →
    match last steps with
    | Some step =>
        returned (eval_step np_str ind objs verbose step timeout kwargs)
        = Some sc
    | None => scores locals = Some sc
    end.
Proof.
  induction steps as [|step steps IH]; intros locals sc fs Hret.
  - cbn [by_steps_loop] in Hret. rewrite returned_bind in Hret. simpl.
    destruct (scores locals) as [sc0|]; [|done]. cbn in Hret.
    destruct (final_scores locals); [|done]. cbn in Hret. congruence.
  - cbn [by_steps_loop] in Hret. rewrite returned_bind in Hret.
    assert (returned (eval_step np_str ind objs verbose step timeout kwargs)
            = returned (mapM (λ obj, invoke_step ind obj verbose step timeout
                                       kwargs) objs)
              ≫= λ values, returned (np_concatenate np_str values)) as Hstep
      by apply returned_eval_step.
    destruct (returned (mapM _ objs)) as [values|]; [|done].
    cbn [mbind option_bind] in Hret, Hstep. rewrite returned_bind in Hret.
    destruct (returned (np_concatenate np_str values)) as [sc1|]; [|done].
    cbn [mbind option_bind] in Hret. rewrite returned_bind in Hret.
    destruct (returned (if String.eqb strategy "mean" then _ else _))
      as [fs1|]; [|done].
    cbn [mbind option_bind] in Hret.
    rewrite returned_bind, returned_ret in Hret.
    cbn [mbind option_bind] in Hret.
    apply IH in Hret. cbn [scores] in Hret.
    rewrite last_cons. destruct (last steps) as [step'|]; [done|].
    by injection Hret as <-.
Qed.

Lemma all_exceed_returns_on_str (x : Score) (threshold signs : list Q) b :
  returned (all_exceed x threshold signs) = Some b → ∃ s, x = Str s.
Proof. destruct x; try done. eauto. Qed.

(** With thresholds every step runs the early-stop test, which only a str
    passes without raising. *)
Lemma by_steps_loop_str_final ind objs signs strategy ths verbose timeout
    kwargs :
  ∀ steps locals sc fs,
    (∀ fs0, final_scores locals = Some fs0 → ∃ s, fs0 = Str s) →
    returned (by_steps_loop np_str ind objs signs strategy (Some ths) verbose
                timeout kwargs steps locals) = Some (sc, fs) →
    ∃ s, fs = Str s.
Proof.
  induction steps as [|step steps IH]; intros locals sc fs Hinv Hret.
  - cbn [by_steps_loop] in Hret. rewrite returned_bind in Hret.
    destruct (scores locals) as [sc0|]; [|done]. cbn in Hret.
    destruct (final_scores locals) as [fs0|] eqn:Hfs; [|done]. cbn in Hret.
    injection Hret as <- <-. by apply Hinv.
  - cbn [by_steps_loop] in Hret. rewrite returned_bind in Hret.
    destruct (returned (mapM _ objs)) as [values|]; [|done].
    cbn [mbind option_bind] in Hret. rewrite returned_bind in Hret.
    destruct (returned (np_concatenate np_str values)) as [sc1|]; [|done].
    cbn [mbind option_bind] in Hret. rewrite returned_bind in Hret.
    destruct (returned (if String.eqb strategy "mean" then _ else _))
      as [fs1|]; [|done].
    cbn [mbind option_bind] in Hret. rewrite !returned_bind in Hret.
    destruct (returned (getitem ths step)) as [threshold|]; [|done].
    cbn [mbind option_bind] in Hret. rewrite returned_bind in Hret.
    destruct fs1 as [x|]; [|done]. cbn [read_local] in Hret.
    rewrite returned_ret in Hret. cbn [mbind option_bind] in Hret.
    destruct (returned (all_exceed x threshold signs)) as [stop|] eqn:Hstop;
      [|done].
    apply all_exceed_returns_on_str in Hstop as [s ->].
    cbn [mbind option_bind] in Hret. destruct stop.
    + rewrite returned_bind in Hret. cbn in Hret.
      injection Hret as <- <-. eauto.
    + eapply IH; [|exact Hret]. cbn. intros fs0 [= <-]. eauto.
Qed.

End more_staged_facts.

(** A strategy other than "mean" and "last" is not refused: no branch
    assigns [final_scores], and the call never returns (it ends in
    UnboundLocalError or in an earlier error), for every number of steps. *)
Theorem eval_objective_list_by_steps_unknown_strategy {Individual : Type}
    (np_str : Q → string) (ind : Individual)
    (objective_list : list (ObjectiveFunction Individual)) (n_steps : Z)
    (objective_function_weights : list Q) (final_score_strategy : string)
    (thresholds : option (list (list Q))) (verbose : Z) (timeout : option Q)
    (objective_kwargs : gmap string KwVal) :
  final_score_strategy ≠ "mean" →
  final_score_strategy ≠ "last" →
  returned (eval_objective_list_by_steps np_str ind objective_list n_steps
              objective_function_weights final_score_strategy thresholds
              verbose timeout objective_kwargs)
  = None.
Proof.
  intros Hmean Hlast. unfold eval_objective_list_by_steps.
  apply by_steps_loop_unassigned; [| |done]; by apply String.eqb_neq.
Qed.

Lemma eval_objective_list_by_steps_unknown_strategy_witness :
  returned (eval_objective_list_by_steps Examples.np_str "A" [Examples.obj2] 3
              [1%Q; 1%Q] "median" None 0 None ∅)
  = None.
Proof.
  apply (eval_objective_list_by_steps_unknown_strategy Examples.np_str "A"
           [Examples.obj2] 3 [1%Q; 1%Q] "median" None 0 None ∅);
    discriminate.
Defined.

(** Without thresholds, a call that returns had at least one step, and the
    vector it returns is the evaluation at the last step, [step =
    n_steps - 1]: what the earlier steps gave is not in the result. *)
Theorem eval_objective_list_by_steps_returns_last_step {Individual : Type}
    (np_str : Q → string) (ind : Individual)
    (objective_list : list (ObjectiveFunction Individual)) (n_steps : Z)
    (objective_function_weights : list Q) (final_score_strategy : string)
    (verbose : Z) (timeout : option Q) (objective_kwargs : gmap string KwVal)
    (sc : list Score) (fs : Score) :
  returned (eval_objective_list_by_steps np_str ind objective_list n_steps
              objective_function_weights final_score_strategy None verbose
              timeout objective_kwargs) = Some (sc, fs) →
  (0 < n_steps)%Z
  ∧ returned (eval_step np_str ind objective_list verbose
                (Z.to_nat n_steps - 1) timeout objective_kwargs) = Some sc.
Proof.
  unfold eval_objective_list_by_steps. intros Hret.
  apply by_steps_loop_last_step in Hret.
  destruct (Z.to_nat n_steps) as [|k] eqn:Hk; [done|].
  rewrite seq_S, last_snoc in Hret. simpl in Hret.
  split; [lia|]. by replace (S k - 1) with k by lia.
Qed.

Lemma eval_objective_list_by_steps_returns_last_step_witness :
  (0 < 2)%Z
  ∧ returned (eval_step Examples.np_str "A" [Examples.stepped] 0
                (Z.to_nat 2 - 1) None ∅) = Some [Num 1; Num 10].
Proof.
  apply (eval_objective_list_by_steps_returns_last_step Examples.np_str "A"
           [Examples.stepped] 2 [1%Q; 1%Q] "mean" 0 None ∅ [Num 1; Num 10]
           (Num (11 # 2))).
  vm_compute. reflexivity.
Defined.

(** The keyword [step] belongs to the staged evaluator: when the caller's
    keyword arguments hold it too, the first invocation is a TypeError and
    nothing is evaluated. *)
Theorem eval_objective_list_by_steps_step_clash {Individual : Type}
    (np_str : Q → string) (ind : Individual)
    (objective_list : list (ObjectiveFunction Individual)) (n_steps : Z)
    (objective_function_weights : list Q) (final_score_strategy : string)
    (thresholds : option (list (list Q))) (verbose : Z) (timeout : option Q)
    (objective_kwargs : gmap string KwVal) :
  is_Some (objective_kwargs !! "step") →
  objective_list ≠ [] →
  (0 < n_steps)%Z →
  eval_objective_list_by_steps np_str ind objective_list n_steps
    objective_function_weights final_score_strategy thresholds verbose timeout
    objective_kwargs
  = raise (TypeError "got multiple values for keyword argument 'step'").
Proof.
  intros Hstep Hne Hn. unfold eval_objective_list_by_steps.
  destruct (Z.to_nat n_steps) as [|k] eqn:Hk; [lia|].
  destruct objective_list as [|obj objs]; [done|].
  rewrite <- cons_seq. cbn [by_steps_loop].
  set (f := λ obj0, invoke_step ind obj0 verbose 0 timeout objective_kwargs).
  assert (mapM f (obj :: objs)
          = raise (TypeError "got multiple values for keyword argument 'step'"))
    as ->; [|done].
  change (mapM f (obj :: objs)) with (y ← f obj; k ← mapM f objs; mret (y :: k)).
  unfold f, invoke_step. by rewrite bool_decide_eq_true_2.
Qed.

Lemma eval_objective_list_by_steps_step_clash_witness :
  eval_objective_list_by_steps Examples.np_str "A" [Examples.stepped] 2
    [1%Q; 1%Q] "mean" None 0 None {["step" := KwInt 7]}
  = raise (TypeError "got multiple values for keyword argument 'step'").
Proof.
  apply (eval_objective_list_by_steps_step_clash Examples.np_str "A"
           [Examples.stepped] 2 [1%Q; 1%Q] "mean" None 0 None
           {["step" := KwInt 7]}).
  - by eexists.
  - discriminate.
  - lia.
Defined.

(** With thresholds given, a call that returns has a str as its final score:
    a numeric final score never gets through the early-stop test, at any
    step, under either strategy. *)
Theorem eval_objective_list_by_steps_thresholds_need_str {Individual : Type}
    (np_str : Q → string) (ind : Individual)
    (objective_list : list (ObjectiveFunction Individual)) (n_steps : Z)
    (objective_function_weights : list Q) (final_score_strategy : string)
    (thresholds : list (list Q)) (verbose : Z) (timeout : option Q)
    (objective_kwargs : gmap string KwVal) (sc : list Score) (fs : Score) :
  returned (eval_objective_list_by_steps np_str ind objective_list n_steps
              objective_function_weights final_score_strategy (Some thresholds)
              verbose timeout objective_kwargs) = Some (sc, fs) →
  ∃ s, fs = Str s.
Proof.
  unfold eval_objective_list_by_steps. intros Hret.
  eapply by_steps_loop_str_final; [|exact Hret]. done.
Qed.

Lemma eval_objective_list_by_steps_thresholds_need_str_witness :
  ∃ s, INVALID = Str s.
Proof.
  apply (eval_objective_list_by_steps_thresholds_need_str Examples.np_str "A"
           [Examples.failing] 1 [1%Q] "last" [[]] 0 None ∅ [INVALID] INVALID).
  vm_compute. reflexivity.
Defined.

(** ** More on optimize_objective and its dispatcher *)

Section more_optimizer_facts.

Context `{Optimizable Individual}.
Implicit Types (ind : Individual) (objective : ObjectiveFunction Individual).

(** The budget ran out and the call was interrupted, or it did not and the
    call went through as it is. *)
Lemma optimize_objective_cases ind objective steps (verbose : Z) timeout :
  (timed_out timeout (optimize ind objective steps)
   ∧ call_result (stopit_timeout timeout (optimize ind objective steps))
     = Raises TimeoutException)
  ∨ (¬ timed_out timeout (optimize ind objective steps)
     ∧ stopit_timeout timeout (optimize ind objective steps)
       = optimize ind objective steps).
Proof.
  set (c := optimize ind objective steps).
  assert (timed_out timeout c ∨ ¬ timed_out timeout c) as [Hlate|Hin].
  { unfold timed_out. destruct timeout as [t|]; [|right; by intros []].
    destruct (Qeq_dec t 0) as [Hz|Hnz]; [right; intros [Hn _]; by apply Hn|].
    destruct (Qlt_le_dec t (elapsed c)) as [Ht|Ht];
      [|right; intros (_ & Hlate & _); by apply Qlt_not_le in Hlate].
    destruct (Qlt_le_dec 0 (elapsed c)) as [H0|H0];
      [by left|right; intros (_ & _ & Hpos); by apply Qlt_not_le in Hpos]. }
  - left. split; [done|]. by apply stopit_timeout_expired.
  - right. split; [done|]. by apply stopit_timeout_in_time.
Qed.

Lemma optimize_objective_body_outcome ind objective steps verbose :
  outcome (optimize_objective_body ind objective steps verbose)
  = match call_result (optimize ind objective steps) with
    | Returns value =>
        Returns (if isinstance_Iterable value then value else list_of value)
    | Raises e =>
        match exc_class e with
        | ExceptionSubclass _ => Returns (Sequence [NaN])
        | FunctionTimedOut | BaseExceptionOnly _ => Raises e
        end
    end.
Proof. apply optimize_objective_on_outcome. Qed.

Lemma optimize_objective_returns_iff ind objective steps verbose timeout :
  is_Some (returned (optimize_objective ind objective steps verbose timeout))
  ↔ optimize_absorbed timeout (optimize ind objective steps).
Proof.
  unfold optimize_absorbed, returned.
  rewrite optimize_objective_under_timeout, optimize_objective_on_outcome.
  destruct (optimize_objective_cases ind objective steps verbose timeout)
    as [[Hlate ->]|[Hin ->]].
  - simpl. split; [by left|]. intros _. by eexists.
  - destruct (call_result _) as [value|e].
    + split; [by right|]. intros _. by eexists.
    + destruct (exc_class e) as [|name|name] eqn:Hclass.
      * split; [by intros [? ?]|]. intros [?|[name ?]]; [done|congruence].
      * split; [right; by eexists|]. intros _. by eexists.
      * split; [by intros [? ?]|]. intros [?|[name' ?]]; [done|congruence].
Qed.

End more_optimizer_facts.

(** The only exceptions that leave [optimize_objective] are those
    [ind.optimize] itself raised and that are no instance of [Exception]:
    the function raises nothing of its own and no [Exception] gets past
    it. *)
Theorem optimize_objective_raises_only_non_Exception `{Optimizable Individual}
    (ind : Individual) (objective : ObjectiveFunction Individual)
    (steps verbose : Z) (timeout : option Q) (e : PyExc) :
  outcome (optimize_objective ind objective steps verbose timeout) = Raises e →
  (∀ name, exc_class e ≠ ExceptionSubclass name)
  ∧ call_result (optimize ind objective steps) = Raises e.
Proof.
  rewrite optimize_objective_under_timeout, optimize_objective_on_outcome.
  destruct (optimize_objective_cases ind objective steps verbose timeout)
    as [[_ ->]|[_ ->]]; [done|].
  destruct (call_result _) as [value|e']; [done|].
  destruct (exc_class e') as [|name|name] eqn:Hclass; [|done|];
    intros [= <-]; split; try done; intros name'; congruence.
Qed.

Lemma optimize_objective_raises_only_non_Exception_witness :
  (∀ name, exc_class Examples.KeyboardInterrupt ≠ ExceptionSubclass name)
  ∧ call_result (optimize Examples.Interrupted Examples.accuracy 5)
    = Raises Examples.KeyboardInterrupt.
Proof.
  apply (optimize_objective_raises_only_non_Exception Examples.Interrupted
           Examples.accuracy 5 0 (Some 30%Q) Examples.KeyboardInterrupt).
  reflexivity.
Defined.

(** The verbosity level of [optimize_objective] decides what is printed
    and nothing else, and below level 2 nothing is printed. *)
Theorem optimize_objective_verbose `{Optimizable Individual}
    (ind : Individual) (objective : ObjectiveFunction Individual)
    (steps verbose verbose' : Z) (timeout : option Q) :
  outcome (optimize_objective ind objective steps verbose timeout)
  = outcome (optimize_objective ind objective steps verbose' timeout)
  ∧ ((verbose < 2)%Z →
     stdout (optimize_objective ind objective steps verbose timeout) = []).
Proof.
  rewrite !optimize_objective_under_timeout. split.
  - by rewrite !optimize_objective_on_outcome.
  - intros Hquiet. unfold optimize_objective_on.
    destruct (call_result _) as [value|e]; [done|].
    assert ((2 <=? verbose)%Z = false) as -> by lia.
    assert ((3 <=? verbose)%Z = false) as -> by lia.
    by destruct (exc_class e).
Qed.

Lemma joblib_Parallel_returned {A} finish_rank n_jobs (calls : list (M A)) :
  returned (joblib_Parallel finish_rank n_jobs calls) = mapM returned calls.
Proof. apply dask_compute_returned. Qed.

(** [parallel_optimize_objective] returns None exactly when, for every
    individual, [ind.optimize] timed out, returned, or raised an instance of
    [Exception]: failures and timeouts of individuals never make the
    dispatcher fail, and what the individuals returned is dropped. *)
Theorem parallel_optimize_objective_returns_iff `{Optimizable Individual}
    (finish_rank : Z → nat → nat) (individual_list : list Individual)
    (objective : ObjectiveFunction Individual) (n_jobs verbose steps : Z)
    (timeout : option Q) (objective_kwargs : gmap string KwVal) :
  returned (parallel_optimize_objective finish_rank individual_list objective
              n_jobs verbose steps timeout objective_kwargs) = Some ()
  ↔ Forall (λ ind, optimize_absorbed timeout (optimize ind objective steps))
      individual_list.
Proof.
  unfold parallel_optimize_objective.
  rewrite returned_bind, joblib_Parallel_returned, mapM_fmap_option.
  split.
  - intros Hret. apply Forall_forall. intros ind Hin.
    apply (optimize_objective_returns_iff ind objective steps verbose timeout).
    destruct (mapM _ individual_list) as [values|] eqn:Hvalues; [|done].
    apply mapM_Some in Hvalues.
    apply list_elem_of_lookup in Hin as [i Hi].
    destruct (Forall2_lookup_l _ _ _ _ _ Hvalues Hi) as (v & _ & ->).
    by eexists.
  - intros Hall.
    assert (is_Some (mapM (λ ind, returned (optimize_objective ind objective
                                              steps verbose timeout))
                       individual_list)) as [values ->]; [|done].
    apply mapM_is_Some. eapply Forall_impl; [exact Hall|].
    intros ind. apply optimize_objective_returns_iff.
Qed.

(** ** More on parallel_eval_objective_list_by_steps *)

(** The staged dispatcher returns the same value for every number of jobs
    and every order of completion, and what it returns has one entry for
    each individual. *)
Theorem parallel_eval_objective_list_by_steps_one_entry_each
    {Individual : Type} (np_str : Q → string)
    (finish_rank finish_rank' : Z → nat → nat)
    (individual_list : list Individual)
    (objective_list : list (ObjectiveFunction Individual))
    (objective_function_weights : list Q) (n_steps : Z)
    (final_score_strategy : string) (thresholds : option (list (list Q)))
    (n_jobs n_jobs' verbose : Z) (timeout : option Q)
    (objective_kwargs : gmap string KwVal) :
  returned (parallel_eval_objective_list_by_steps np_str finish_rank
              individual_list objective_list objective_function_weights
              n_steps final_score_strategy thresholds n_jobs verbose timeout
              objective_kwargs)
  = returned (parallel_eval_objective_list_by_steps np_str finish_rank'
                individual_list objective_list objective_function_weights
                n_steps final_score_strategy thresholds n_jobs' verbose timeout
                objective_kwargs)
  ∧ ∀ m, returned (parallel_eval_objective_list_by_steps np_str finish_rank
                     individual_list objective_list objective_function_weights
                     n_steps final_score_strategy thresholds n_jobs verbose
                     timeout objective_kwargs) = Some m →
         length m = length individual_list.
Proof.
  unfold parallel_eval_objective_list_by_steps.
  rewrite !dask_compute_returned, mapM_fmap_option. split; [done|].
  intros m Hm. apply length_mapM in Hm. by rewrite Hm.
Qed.
